(** * go-tmcl: the TMCL request/reply exchange ([Exec]) and its frame format

    A shallow embedding of [src/log.go] (the [Logger] interface, the [TMCL]
    object, [Exec], [getError], [calcChecksum]).

    - a Go [byte] is a [Z] in [0, 256), an [int32] a [Z] in [-2^31, 2^31);
      conversions and wrap-around are written out;
    - a [[9]byte] array is a [list Z], read with [!!!] and written with
      [<[i:=b]>];
    - the effects of [Exec] (mutex, transport, logger) are the actions of a
      small program tree, run either by one caller against a [TMCL] value or
      by several callers interleaved. *)

From Stdlib Require Import ZArith Lia Ascii.
From stdpp Require Import base option list numbers strings pretty.

Local Open Scope Z_scope.

(** ** Machine integers *)

Abbreviation byte := Z (only parsing).
Abbreviation int32 := Z (only parsing).

Definition is_byte (b : Z) : Prop := 0 <= b < 256.
Definition is_int32 (v : Z) : Prop := - 2 ^ 31 <= v < 2 ^ 31.

(** The Go conversions [byte(x)], [uint32(x)] and [int32(x)]. *)
Definition to_byte (x : Z) : byte := x mod 256.
Definition to_uint32 (x : Z) : Z := x mod 2 ^ 32.
Definition to_int32 (x : Z) : int32 :=
  let u := x mod 2 ^ 32 in
  if u <? 2 ^ 31 then u else u - 2 ^ 32.

(** ** encoding/binary, big endian *)

(** [binary.BigEndian.PutUint32(b, v)]: the four bytes stored in [b[0..3]]. *)
Definition PutUint32 (v : Z) : list byte :=
  [ to_byte (Z.shiftr v 24); to_byte (Z.shiftr v 16);
    to_byte (Z.shiftr v 8); to_byte v ].

(** [binary.BigEndian.Uint32(b)]. *)
Definition Uint32 (b : list byte) : Z :=
  Z.lor (Z.lor (Z.lor (b !!! 3%nat) (Z.shiftl (b !!! 2%nat) 8))
               (Z.shiftl (b !!! 1%nat) 16))
        (Z.shiftl (b !!! 0%nat) 24).

(** [copy(dst[at:], src)] for a [src] that fits: used for
    [PutUint32(tx[4:8], ...)], which writes through the slice into [tx]. *)
Fixpoint store (at_ : nat) (src : list byte) (dst : list byte) : list byte :=
  match src with
  | [] => dst
  | b :: src' => store (S at_) src' (<[at_ := b]> dst)
  end.

(** The slice [b[lo:hi]]. *)
Definition slice (lo hi : nat) (b : list byte) : list byte :=
  take (hi - lo) (drop lo b).

(** ** Errors *)

Inductive error : Type :=
  | errorWrongChecksum
  | errorInvalidCommand
  | errorWrongType
  | errorInvalidType
  | errorConfigurationEEPROMLocked
  | errorCommandNotAvailable
  | errorPortNotOpen                 (* errors.New("port not open") in Exec *)
  | errorBoardCode (code : byte)     (* fmt.Errorf("board returned error code %d", code) *)
  | errorTransport (msg : string).   (* whatever the port's Write or Read returns *)

#[global] Instance error_eq_dec : EqDecision error.
Proof. solve_decision. Defined.

(** The [Error()] text of each value. *)
Definition Error (e : error) : string :=
  match e with
  | errorWrongChecksum => "wrong checksum"
  | errorInvalidCommand => "invalid command"
  | errorWrongType => "wrong type"
  | errorInvalidType => "invalid type"
  | errorConfigurationEEPROMLocked => "configuration EEPROM locked"
  | errorCommandNotAvailable => "command not available"
  | errorPortNotOpen => "port not open"
  | errorBoardCode code => "board returned error code " +:+ pretty code
  | errorTransport msg => msg
  end.

(** ** getError and calcChecksum *)

(** [getError] is a helper method to return meaningful errors. *)
Definition getError (code : byte) : option error :=
  if decide (code = 100 \/ code = 101) then None
  else if decide (code = 1) then Some errorWrongChecksum
  else if decide (code = 2) then Some errorInvalidCommand
  else if decide (code = 3) then Some errorWrongType
  else if decide (code = 4) then Some errorInvalidType
  else if decide (code = 5) then Some errorConfigurationEEPROMLocked
  else if decide (code = 6) then Some errorCommandNotAvailable
  else Some (errorBoardCode code).

(** [calcChecksum] calculates the checksum by adding up all bytes; the
    accumulator [x] is a [byte], so every [x += b] wraps. *)
Definition calcChecksum (bts : list byte) : byte :=
  foldl (fun x b => to_byte (x + b)) 0 bts.

(** ** The Logger interface and its two implementations *)

(** A logger value is its two methods; what a call prints is returned as
    lines and appended to the standard output by the caller's world. *)
Record Logger : Type := {
  LogSend : list byte -> byte -> byte -> byte -> int32 -> list string;
  LogRecv : list byte -> int32 -> list string
}.

Definition NoopLogger : Logger :=
  {| LogSend := fun _ _ _ _ _ => []; LogRecv := fun _ _ => [] |}.

Definition hexdigit (d : Z) : string :=
  match d with
  | 0 => "0" | 1 => "1" | 2 => "2" | 3 => "3" | 4 => "4" | 5 => "5"
  | 6 => "6" | 7 => "7" | 8 => "8" | 9 => "9" | 10 => "a" | 11 => "b"
  | 12 => "c" | 13 => "d" | 14 => "e" | _ => "f"
  end.

(** [%x] of a byte slice: two lower-case digits per byte. *)
Fixpoint hex (raw : list byte) : string :=
  match raw with
  | [] => ""
  | b :: raw' => hexdigit (b / 16) +:+ hexdigit (b mod 16) +:+ hex raw'
  end.

Definition DefaultLogger : Logger :=
  {| LogSend := fun raw cmd index bank val =>
       [ "tmcl >>> " +:+ hex raw +:+ " (cmd: " +:+ pretty cmd
         +:+ ", index: " +:+ pretty index +:+ ", bank: " +:+ pretty bank
         +:+ ", val: " +:+ pretty val +:+ ")" ];
     LogRecv := fun raw val =>
       [ "tmcl <<< " +:+ hex raw +:+ " (val: " +:+ pretty val +:+ ")" ] |}.

(** ** Programs: the effects a method performs *)

Inductive action : Type :=
  | MutexLock                          (* q.cmdMutex.Lock() *)
  | MutexUnlock                        (* q.cmdMutex.Unlock() *)
  | PortIsNil                          (* q.port == nil *)
  | PortWrite (p : list byte)          (* q.port.Write(p) *)
  | PortReadFull (buf : list byte)     (* io.ReadFull(q.port, buf) *)
  | LogSendCall (raw : list byte) (cmd index bank : byte) (val : int32)
  | LogRecvCall (raw : list byte) (val : int32).

#[global] Instance action_eq_dec : EqDecision action.
Proof. solve_decision. Defined.

(** What the caller gets back from each action. [PortReadFull] gives back
    the buffer as the call left it. *)
Definition answer (a : action) : Type :=
  match a with
  | PortIsNil => bool
  | PortWrite _ => (Z * option error)%type
  | PortReadFull _ => (list byte * option error)%type
  | _ => unit
  end.

Inductive prog (R : Type) : Type :=
  | Ret (r : R)
  | Vis (a : action) (k : answer a -> prog R).
Arguments Ret {R} r.
Arguments Vis {R} a k.

Fixpoint bind {A B : Type} (m : prog A) (f : A -> prog B) : prog B :=
  match m with
  | Ret a => f a
  | Vis a k => Vis a (fun x => bind (k x) f)
  end.

#[global] Instance prog_ret : MRet prog := @Ret.
#[global] Instance prog_bind : MBind prog := fun A B f m => bind m f.

Definition call (a : action) : prog (answer a) := Vis a Ret.

(** [defer d] around a body: [d] runs when the body returns, whatever the
    return statement. *)
Definition defer {R : Type} (d : prog unit) (body : prog R) : prog R :=
  r ← body; d;; Ret r.

(** ** Exec *)

(** [Exec] is the general function to call a command on the board. *)
Definition Exec (cmd typeNo motorOrBank : byte) (value : int32)
  : prog (int32 * option error) :=
  (* one command at a time *)
  call MutexLock;;
  defer (call MutexUnlock) (
    isNil ← call PortIsNil;
    if isNil : bool then Ret (0, Some errorPortNotOpen) else
    let tx := replicate 9 0 in
    let tx := <[0%nat := 2]> tx in (* module address not used *)
    let tx := <[1%nat := cmd]> tx in
    let tx := <[2%nat := typeNo]> tx in
    let tx := <[3%nat := motorOrBank]> tx in
    let tx := store 4 (PutUint32 (to_uint32 value)) tx in
    let tx := <[8%nat := calcChecksum (slice 0 8 tx)]> tx in
    (* send *)
    '(_, err) ← call (PortWrite (slice 0 9 tx));
    match err with
    | Some e => Ret (0, Some e)
    | None =>
      let resp := replicate 9 0 in
      '(resp, err) ← call (PortReadFull resp);
      match err with
      | Some e => Ret (0, Some e)
      | None =>
        let returnValue := to_int32 (Uint32 (slice 4 8 resp)) in
        (* check checksum *)
        if decide (resp !!! 8%nat ≠ calcChecksum (slice 0 8 resp))
        then Ret (0, Some errorWrongChecksum)
        (* check status code *)
        else if decide (resp !!! 2%nat < 100)
        then Ret (0, getError (resp !!! 2%nat))
        (* return result *)
        else Ret (returnValue, None)
      end
    end).

(** ** The TMCL object and the world one caller runs in *)

(** [io.ReadWriter], as [Exec] uses it. [port_ReadFull n] is
    [io.ReadFull] on a buffer of [n] bytes: the bytes it read and its
    error, which is nil exactly when all [n] bytes were read. *)
Class ReadWriter (P : Type) : Type := {
  port_Write : list byte -> P -> (Z * option error) * P;
  port_ReadFull : nat -> P -> (list byte * option error) * P
}.

(** [TMCL] is the main api object to connect to a TMCL board. *)
Record TMCL (P : Type) : Type := mkTMCL {
  port : option P;
  log : Logger;
  cmdMutex : bool       (* true while locked *)
}.
Arguments mkTMCL {P} port log cmdMutex.
Arguments port {P} _.
Arguments log {P} _.
Arguments cmdMutex {P} _.

(** [NewTMCL] creates a new TMCL object. *)
Definition NewTMCL {P : Type} (port : option P) (logger : option Logger)
  : TMCL P :=
  let logger := match logger with None => NoopLogger | Some l => l end in
  mkTMCL port logger false.

(** [Serial] is a TMCL board connected via serial. *)
Record Serial (P : Type) : Type := mkSerial {
  tmcl : TMCL P;
  serialPort : option P
}.
Arguments mkSerial {P} tmcl serialPort.
Arguments tmcl {P} _.
Arguments serialPort {P} _.

(** [NewSerial] creates a new struct for a TMCL-Board that opens a serial
    itself. *)
Definition NewSerial {P : Type} : Serial P :=
  mkSerial (NewTMCL None (Some NoopLogger)) None.

(** [OpenPort] opens the serial port; [opened] is what [serial.OpenPort]
    returns. *)
Definition OpenPort {P : Type} (opened : P + error) (s : Serial P)
  : option error * Serial P :=
  match serialPort s with
  | Some _ => (None, s)
  | None =>
    match opened with
    | inr err => (Some err, s)
    | inl p =>
      (None, mkSerial (mkTMCL (Some p) (log (tmcl s)) (cmdMutex (tmcl s)))
                      (Some p))
    end
  end.

(** [ClosePort] closes the serial port. *)
Definition ClosePort {P : Type} (s : Serial P) : Serial P :=
  match serialPort s with
  | None => s
  | Some _ =>
    mkSerial (mkTMCL None (log (tmcl s)) (cmdMutex (tmcl s))) None
  end.

Record world (P : Type) : Type := mkWorld {
  obj : TMCL P;
  stdout : list string
}.
Arguments mkWorld {P} obj stdout.
Arguments obj {P} _.
Arguments stdout {P} _.

Section Run.
Context {P : Type} `{ReadWriter P}.

Definition set_mutex (b : bool) (w : world P) : world P :=
  mkWorld (mkTMCL (port (obj w)) (log (obj w)) b) (stdout w).

Definition set_port (p : P) (w : world P) : world P :=
  mkWorld (mkTMCL (Some p) (log (obj w)) (cmdMutex (obj w))) (stdout w).

Definition print (lines : list string) (w : world P) : world P :=
  mkWorld (obj w) (stdout w ++ lines).

(** One action in a world. [None]: the caller cannot go on from here
    ([Lock] on a held mutex blocks; [Unlock] of a free mutex and a method
    call on a nil port are fatal). *)
Definition handle (a : action) (w : world P) : option (answer a * world P) :=
  match a return option (answer a * world P) with
  | MutexLock =>
    if cmdMutex (obj w) then None else Some (tt, set_mutex true w)
  | MutexUnlock =>
    if cmdMutex (obj w) then Some (tt, set_mutex false w) else None
  | PortIsNil =>
    Some (match port (obj w) with None => true | Some _ => false end, w)
  | PortWrite p =>
    match port (obj w) with
    | None => None
    | Some s => let '(r, s') := port_Write p s in Some (r, set_port s' w)
    end
  | PortReadFull buf =>
    match port (obj w) with
    | None => None
    | Some s =>
      let '((data, err), s') := port_ReadFull (length buf) s in
      Some ((store 0 data buf, err), set_port s' w)
    end
  | LogSendCall raw cmd index bank val =>
    Some (tt, print (LogSend (log (obj w)) raw cmd index bank val) w)
  | LogRecvCall raw val =>
    Some (tt, print (LogRecv (log (obj w)) raw val) w)
  end.

(** A program run by a single caller: the actions performed, in order,
    and the returned value with the final world when the program
    returns. *)
Fixpoint run {R : Type} (m : prog R) (w : world P)
  : list action * option (R * world P) :=
  match m with
  | Ret r => ([], Some (r, w))
  | Vis a k =>
    match handle a w with
    | None => ([], None)
    | Some (x, w') => let '(t, res) := run (k x) w' in (a :: t, res)
    end
  end.

Definition trace {R : Type} (m : prog R) (w : world P) : list action :=
  fst (run m w).

Definition result {R : Type} (m : prog R) (w : world P)
  : option (R * world P) :=
  snd (run m w).

End Run.

(** Which actions touch the byte stream, which call the observer. *)
Definition is_io (a : action) : bool :=
  match a with PortWrite _ | PortReadFull _ => true | _ => false end.

Definition is_write (a : action) : bool :=
  match a with PortWrite _ => true | _ => false end.

Definition is_log (a : action) : bool :=
  match a with LogSendCall _ _ _ _ _ | LogRecvCall _ _ => true | _ => false end.

(** ** A scripted port, for concrete runs *)

(** It records what is written, answers each [Write] with [w_err], and
    serves reads from the bytes in [rx]; when fewer bytes than asked are
    left, the read fails the way [io.ReadFull] does. *)
Record Script : Type := mkScript {
  written : list (list byte);
  w_err : option error;
  rx : list byte
}.

#[global] Instance Script_rw : ReadWriter Script := {|
  port_Write := fun p s =>
    match w_err s with
    | Some e => ((0, Some e), s)
    | None =>
      ((Z.of_nat (length p), None), mkScript (written s ++ [p]) None (rx s))
    end;
  port_ReadFull := fun n s =>
    if decide (n ≤ length (rx s))%nat
    then ((take n (rx s), None), mkScript (written s) (w_err s) (drop n (rx s)))
    else ((rx s,
           Some (errorTransport
                   (match rx s with [] => "EOF" | _ => "unexpected EOF" end))),
          mkScript (written s) (w_err s) [])
|}.

(** ** The frame [Exec] builds and what it makes of a reply *)

(** The request frame, written out. *)
Definition request (cmd typeNo motorOrBank : byte) (value : int32) : list byte :=
  let body := [2; cmd; typeNo; motorOrBank] ++ PutUint32 (to_uint32 value) in
  body ++ [calcChecksum body].

(** What [Exec] returns once a full reply [resp] is in its buffer: the
    checksum test, the status test and the final return of [Exec]. *)
Definition status_outcome (resp : list byte) : int32 * option error :=
  if decide (resp !!! 2%nat < 100)
  then (0, getError (resp !!! 2%nat))
  else (to_int32 (Uint32 (slice 4 8 resp)), None).

Definition reply_outcome (resp : list byte) : int32 * option error :=
  if decide (resp !!! 8%nat ≠ calcChecksum (slice 0 8 resp))
  then (0, Some errorWrongChecksum)
  else status_outcome resp.

Definition zeros9 : list byte := replicate 9 0.

(** A list of calls made one after the other by one caller. *)
Fixpoint Exec_each (calls : list (byte * byte * byte * int32))
  : prog (list (int32 * option error)) :=
  match calls with
  | [] => Ret []
  | (cmd, typeNo, motorOrBank, value) :: calls' =>
    r ← Exec cmd typeNo motorOrBank value;
    rs ← Exec_each calls';
    Ret (r :: rs)
  end.

(** ** Replies *)

Section Answers.
Context {P : Type} `{ReadWriter P}.

(** From [w], the attached port takes [req] without error and then
    delivers [resp] as a full read, leaving the world [w']. *)
Definition answers (w : world P) (req resp : list byte) (w' : world P)
  : Prop :=
  cmdMutex (obj w) = false /\
  exists (s s' s'' : P) (n : Z),
    port (obj w) = Some s /\
    port_Write req s = ((n, None), s') /\
    port_ReadFull 9 s' = ((resp, None), s'') /\
    w' = set_port s'' w.

End Answers.

Definition sum_bytes (l : list byte) : Z := foldr Z.add 0 l.

(** A 9-byte frame. *)
Definition is_frame (b : list byte) : Prop :=
  length b = 9%nat /\ Forall is_byte b.

(** The trailing byte is the sum modulo 256 of the first 8 bytes. *)
Definition checksum_valid (b : list byte) : Prop :=
  b !!! 8%nat = sum_bytes (take 8 b) mod 256.

#[global] Instance checksum_valid_dec b : Decision (checksum_valid b).
Proof. unfold checksum_valid. apply _. Defined.

(** A world whose port is a script holding [rx] as its pending input. *)
Definition board (logger : option Logger) (rx : list byte) : world Script :=
  mkWorld (NewTMCL (Some (mkScript [] None rx)) logger) [].

(** ** Several callers on one object *)

(** The shape of a method that holds the mutex for its whole body.
    [inside p]: [p] never locks, and returns only right after an unlock.
    [entry p]: [p] starts by locking and is [inside] from there. *)
Definition is_ret {R : Type} (p : prog R) : Prop :=
  match p with Ret _ => True | Vis _ _ => False end.

Fixpoint inside {R : Type} (p : prog R) : Prop :=
  match p with
  | Ret _ => False
  | Vis a k =>
    a <> MutexLock /\
    forall x, if decide (a = MutexUnlock) then is_ret (k x) else inside (k x)
  end.

Definition entry {R : Type} (p : prog R) : Prop :=
  match p with
  | Ret _ => False
  | Vis a k => a = MutexLock /\ forall x, inside (k x)
  end.

(** The history of a run of several callers, latest event first: which
    caller did which action. A caller is in flight from its [Lock] to its
    [Unlock]. *)
Fixpoint in_flight (h : list (nat * action)) (i : nat) : bool :=
  match h with
  | [] => false
  | (j, a) :: h' =>
    if decide (j = i) then
      match a with
      | MutexLock => true
      | MutexUnlock => false
      | _ => in_flight h' i
      end
    else in_flight h' i
  end.

(** What each caller still has to run. *)
Abbreviation pool := (list (prog (Z * option error))) (only parsing).

Section Concurrent.
Context {P : Type} `{ReadWriter P}.

(** One caller performs its next action on the shared object; a caller
    whose next action cannot be handled (a [Lock] on a held mutex) does
    not move. *)
Inductive step : pool * world P -> nat * action -> pool * world P -> Prop :=
  | step_thread (ts : pool) (w w' : world P) (i : nat) (a : action)
                (k : answer a -> prog (int32 * option error)) (x : answer a) :
      ts !! i = Some (Vis a k) ->
      handle a w = Some (x, w') ->
      step (ts, w) (i, a) (<[i := k x]> ts, w').

Inductive reach (c0 : pool * world P)
  : list (nat * action) -> pool * world P -> Prop :=
  | reach_nil : reach c0 [] c0
  | reach_step h c e c' : reach c0 h c -> step c e c' -> reach c0 (e :: h) c'.

(** The callers of [calls], none started. *)
Definition spawn (calls : list (byte * byte * byte * int32)) : pool :=
  (fun '(cmd, typeNo, motorOrBank, value) =>
     Exec cmd typeNo motorOrBank value) <$> calls.


(** Where caller [i] stands, by whether the history has it in flight. *)
Definition thread_ok (h : list (nat * action)) (locked : bool) (i : nat)
           (t : option (prog (int32 * option error))) : Prop :=
  match t with
  | None => in_flight h i = false
  | Some p =>
    if in_flight h i then inside p /\ locked = true
    else entry p \/ is_ret p
  end.

Definition inv (h : list (nat * action)) (c : pool * world P) : Prop :=
  (forall i, thread_ok h (cmdMutex (obj c.2)) i (c.1 !! i))
  /\ (forall i j, in_flight h i = true -> in_flight h j = true -> i = j)
  /\ (cmdMutex (obj c.2) = true -> exists i, in_flight h i = true).

End Concurrent.

(** Two callers on one board: the first has locked, tested the port and
    written its frame; the second has not started. *)
Definition two_calls : list (byte * byte * byte * int32) :=
  [(1, 0, 1, 500); (6, 1, 0, 0)].

Definition two_calls_history : list (nat * action) :=
  [(0%nat, PortWrite (request 1 0 1 500)); (0%nat, PortIsNil);
   (0%nat, MutexLock)].

(** ** The named operations of command.go *)

Definition ABS : byte := 0.
Definition REL : byte := 1.
Definition COORD : byte := 2.

(** [DefaultSerialBaud] is the default board baud. *)
Definition DefaultSerialBaud : Z := 9600.
(** [GlobalParameterBank] is the bank of the program variables. *)
Definition GlobalParameterBank : byte := 2.
(** [DigitalInputBank] is used with GIO and SIO for digital inputs. *)
Definition DigitalInputBank : byte := 0.
(** [AnalogInputBank] is the bank used for analog inputs. *)
Definition AnalogInputBank : byte := 1.
(** [DigitalOutputBank] is the bank used for controlling the outputs. *)
Definition DigitalOutputBank : byte := 2.

(** [ROR] is Rotate right. *)
Definition ROR (motor : byte) (velocity : int32) : prog (option error) :=
  '(_, err) ← Exec 1 0 motor velocity; Ret err.

(** [ROL] is rotate left. *)
Definition ROL (motor : byte) (velocity : int32) : prog (option error) :=
  '(_, err) ← Exec 2 0 motor velocity; Ret err.

(** [MST] is motor stop. *)
Definition MST (motor : byte) : prog (option error) :=
  '(_, err) ← Exec 3 0 motor 0; Ret err.

(** [MVP] is moving an axis. *)
Definition MVP (mode motor : byte) (value : int32) : prog (option error) :=
  '(_, err) ← Exec 4 mode motor value; Ret err.

(** [SAP] is set axis parameter. *)
Definition SAP (index motor : byte) (value : int32) : prog (option error) :=
  '(_, err) ← Exec 5 index motor value; Ret err.

(** [GAP] is get axis parameter. *)
Definition GAP (index motor : byte) : prog (int32 * option error) :=
  Exec 6 index motor 0.

(** [STAP] is store axis parameter. *)
Definition STAP (index motor : byte) : prog (option error) :=
  '(_, err) ← Exec 7 index motor 0; Ret err.

(** [RSAP] is restore axis parameter. *)
Definition RSAP (index motor : byte) : prog (option error) :=
  '(_, err) ← Exec 8 index motor 0; Ret err.

(** [SGP] is set global parameter. *)
Definition SGP (index bank : byte) (value : int32) : prog (option error) :=
  '(_, err) ← Exec 9 index bank value; Ret err.

(** [GGP] is get global parameter. *)
Definition GGP (index bank : byte) : prog (int32 * option error) :=
  Exec 10 index bank 0.

(** [STGP] is store global parameter. *)
Definition STGP (index bank : byte) : prog (int32 * option error) :=
  Exec 11 index bank 0.

(** [RSGP] is restore global parameter. *)
Definition RSGP (index bank : byte) : prog (int32 * option error) :=
  Exec 12 index bank 0.

(** [SIO] is set io. *)
Definition SIO (port bank : byte) (value : bool) : prog (option error) :=
  let b := 0 in
  let b := if value then 1 else b in
  '(_, err) ← Exec 14 port bank b; Ret err.

(** [GIO] is get io. *)
Definition GIO (port bank : byte) : prog (int32 * option error) :=
  Exec 15 port bank 0.

(** [StopApplication] stops a running TMCL standalone application. *)
Definition StopApplication : prog (option error) :=
  '(_, err) ← Exec 128 0 0 0; Ret err.

(** [RunApplication] starts the TMCL application. Optionally an address
    can be supplied where to start the program, otherwise the program is
    resumed at the current address. *)
Definition RunApplication (specificAddress : bool) (address : int32)
  : prog (option error) :=
  let useAddr := to_byte 0 in
  let useAddr := if specificAddress then 1 else useAddr in
  '(_, err) ← Exec 129 useAddr 0 address; Ret err.

(** [StepApplication] executes only the next command of a TMCL
    application. *)
Definition StepApplication : prog (option error) :=
  '(_, err) ← Exec 130 0 0 0; Ret err.

(** [ResetApplication] sets the program counter to zero and stops the
    standalone application. *)
Definition ResetApplication : prog (option error) :=
  '(_, err) ← Exec 131 0 0 0; Ret err.

(** [GetApplicationStatus] requests the TMCL application status. *)
Definition GetApplicationStatus : prog (int32 * option error) :=
  '(val, err) ← Exec 135 0 0 0;
  match err with
  | Some e => Ret (0, Some e)
  | None => Ret (to_int32 (Z.land (Z.shiftr (to_uint32 val) 24) 0xFF), None)
  end.

(** *** [fmt.Sprintf("%08X", val)] for an [int32] *)

Definition hexdigitX (d : Z) : Ascii.ascii :=
  match d with
  | 0 => "0" | 1 => "1" | 2 => "2" | 3 => "3" | 4 => "4" | 5 => "5"
  | 6 => "6" | 7 => "7" | 8 => "8" | 9 => "9" | 10 => "A" | 11 => "B"
  | 12 => "C" | 13 => "D" | 14 => "E" | _ => "F"
  end%char.

(** The digits of [u] in base 16, most significant first, without leading
    zeros (one digit for 0); [fuel] bounds the number of digits, 16 are
    enough for 64 bits. *)
Fixpoint hexX (fuel : nat) (u : Z) : list Ascii.ascii :=
  match fuel with
  | O => []
  | S fuel' =>
    (if u <? 16 then [] else hexX fuel' (u / 16)) ++ [hexdigitX (u mod 16)]
  end.

(** Verb [X], flag [0], width 8, on a signed integer: the sign is split
    off, the digits are padded with zeros to the width less the sign, and
    the sign is put in front. *)
Definition Sprintf_08X (val : int32) : string :=
  let negative := val <? 0 in
  let u := if negative then - val else val in
  let prec := if negative then 7%nat else 8%nat in
  let digits := hexX 16 u in
  let padded := replicate (prec - length digits) "0"%char ++ digits in
  String.string_of_list_ascii (if negative then "-"%char :: padded else padded).

(** [GetFirmwareVersion] requests the firmware/version information. *)
Definition GetFirmwareVersion : prog (string * option error) :=
  let format := to_byte 1 in (* always use byte format *)
  '(val, err) ← Exec 136 format 0 0;
  match err with
  | Some e => Ret (""%string, Some e)
  | None => Ret (Sprintf_08X val, None)
  end.

(** ** Sequences of [OpenPort] and [ClosePort] on a [Serial] *)

Inductive serial_call (P : Type) : Type :=
  | CallOpenPort (opened : P + error)
  | CallClosePort.
Arguments CallOpenPort {P} opened.
Arguments CallClosePort {P}.

Definition serial_do {P : Type} (s : Serial P) (c : serial_call P) : Serial P :=
  match c with
  | CallOpenPort opened => snd (OpenPort opened s)
  | CallClosePort => ClosePort s
  end.

Definition serial_calls {P : Type} (cs : list (serial_call P)) (s : Serial P)
  : Serial P :=
  foldl serial_do s cs.

(** Two upper-case hex digits of a byte. *)
Definition hexX2 (b : byte) : list Ascii.ascii :=
  [hexdigitX (b / 16); hexdigitX (b mod 16)].

(** The [k] low digits of [u] in base 16, most significant first. *)
Fixpoint hexfix (k : nat) (u : Z) : list Ascii.ascii :=
  match k with
  | O => []
  | S k' => hexfix k' (u / 16) ++ [hexdigitX (u mod 16)]
  end.

(** * Properties *)


Lemma store_full (data : list byte) :
  length data = 9%nat -> store 0 data zeros9 = data.
Proof.
  intros Hlen.
  do 9 (destruct data as [|? data]; [discriminate Hlen|]).
  destruct data; [reflexivity | discriminate Hlen].
Qed.

(** Unfolds a run of [Exec] up to the next answer of the port. *)
Ltac exec_step :=
  unfold Exec, request, reply_outcome, status_outcome, zeros9, slice,
    PutUint32 in *;
  simpl in *.

Section RunExec.
Context {P : Type} `{ReadWriter P}.
Variables (cmd typeNo motorOrBank : byte) (value : int32).

Let call_ : prog (int32 * option error) := Exec cmd typeNo motorOrBank value.
Let req : list byte := request cmd typeNo motorOrBank value.

Lemma run_Exec_locked (w : world P) :
  cmdMutex (obj w) = true -> run call_ w = ([], None).
Proof. intros Hm. subst call_. simpl. rewrite Hm. reflexivity. Qed.

Lemma run_Exec_no_port (w : world P) :
  cmdMutex (obj w) = false -> port (obj w) = None ->
  run call_ w
  = ([MutexLock; PortIsNil; MutexUnlock], Some ((0, Some errorPortNotOpen), w)).
Proof.
  destruct w as [[p l m] out]; simpl; intros -> ->. reflexivity.
Qed.

Lemma run_Exec_write_err (w : world P) (s s' : P) (n : Z) (e : error) :
  cmdMutex (obj w) = false -> port (obj w) = Some s ->
  port_Write req s = ((n, Some e), s') ->
  run call_ w
  = ([MutexLock; PortIsNil; PortWrite req; MutexUnlock],
     Some ((0, Some e), set_port s' w)).
Proof.
  destruct w as [[p l m] out]; simpl; intros -> -> Hw.
  subst call_ req. exec_step. rewrite Hw. reflexivity.
Qed.

Lemma run_Exec_read_err (w : world P) (s s' s'' : P) (n : Z)
      (data : list byte) (e : error) :
  cmdMutex (obj w) = false -> port (obj w) = Some s ->
  port_Write req s = ((n, None), s') ->
  port_ReadFull 9 s' = ((data, Some e), s'') ->
  run call_ w
  = ([MutexLock; PortIsNil; PortWrite req; PortReadFull zeros9; MutexUnlock],
     Some ((0, Some e), set_port s'' w)).
Proof.
  destruct w as [[p l m] out]; simpl; intros -> -> Hw Hr.
  subst call_ req. exec_step. rewrite Hw. simpl. rewrite Hr. reflexivity.
Qed.

Lemma run_Exec_read (w : world P) (s s' s'' : P) (n : Z) (data : list byte) :
  cmdMutex (obj w) = false -> port (obj w) = Some s ->
  port_Write req s = ((n, None), s') ->
  port_ReadFull 9 s' = ((data, None), s'') ->
  run call_ w
  = ([MutexLock; PortIsNil; PortWrite req; PortReadFull zeros9; MutexUnlock],
     Some (reply_outcome (store 0 data zeros9), set_port s'' w)).
Proof.
  destruct w as [[p l m] out]; simpl; intros -> -> Hw Hr.
  subst call_ req. exec_step. rewrite Hw. simpl. rewrite Hr. simpl.
  repeat case_decide; reflexivity.
Qed.

Lemma run_Exec_reply (w : world P) (s s' s'' : P) (n : Z) (resp : list byte) :
  cmdMutex (obj w) = false -> port (obj w) = Some s ->
  port_Write req s = ((n, None), s') ->
  port_ReadFull 9 s' = ((resp, None), s'') ->
  length resp = 9%nat ->
  run call_ w
  = ([MutexLock; PortIsNil; PortWrite req; PortReadFull zeros9; MutexUnlock],
     Some (reply_outcome resp, set_port s'' w)).
Proof.
  intros Hm Hp Hw Hr Hlen.
  rewrite (run_Exec_read w s s' s'' n resp Hm Hp Hw Hr).
  rewrite (store_full resp Hlen). reflexivity.
Qed.

(** With a port attached and the mutex free, a call is one of three
    runs, by what the port answers. *)
Lemma run_Exec_cases (w : world P) (s : P) :
  cmdMutex (obj w) = false -> port (obj w) = Some s ->
  (exists e s',
      run call_ w
      = ([MutexLock; PortIsNil; PortWrite req; MutexUnlock],
         Some ((0, Some e), set_port s' w)))
  \/ (exists e s',
      run call_ w
      = ([MutexLock; PortIsNil; PortWrite req; PortReadFull zeros9;
          MutexUnlock],
         Some ((0, Some e), set_port s' w)))
  \/ (exists data s',
      run call_ w
      = ([MutexLock; PortIsNil; PortWrite req; PortReadFull zeros9;
          MutexUnlock],
         Some (reply_outcome (store 0 data zeros9), set_port s' w))).
Proof.
  intros Hm Hp.
  destruct (port_Write req s) as [[n [e|]] s'] eqn:Hw.
  { left. exists e, s'. eapply run_Exec_write_err; eauto. }
  destruct (port_ReadFull 9 s') as [[data [e|]] s''] eqn:Hr.
  { right; left. exists e, s''. eapply run_Exec_read_err; eauto. }
  right; right. exists data, s''. eapply run_Exec_read; eauto.
Qed.

End RunExec.

(** ** Arithmetic of the frame *)


Lemma calcChecksum_from (a : Z) (l : list byte) :
  foldl (fun x b => to_byte (x + b)) (a mod 256) l = (a + sum_bytes l) mod 256.
Proof.
  revert a. induction l as [|b l IH]; intros a; simpl.
  - f_equal. lia.
  - change (to_byte (a mod 256 + b)) with ((a mod 256 + b) mod 256).
    rewrite IH.
    replace (a mod 256 + b + sum_bytes l) with (a mod 256 + (b + sum_bytes l))
      by lia.
    apply Zplus_mod_idemp_l.
Qed.

Lemma calcChecksum_sum (l : list byte) :
  calcChecksum l = sum_bytes l mod 256.
Proof. exact (calcChecksum_from 0 l). Qed.

Lemma calcChecksum_is_byte (l : list byte) : is_byte (calcChecksum l).
Proof.
  rewrite calcChecksum_sum. unfold is_byte.
  pose proof (Z.mod_pos_bound (sum_bytes l) 256). lia.
Qed.

Lemma to_byte_is_byte (x : Z) : is_byte (to_byte x).
Proof. unfold is_byte, to_byte. pose proof (Z.mod_pos_bound x 256). lia. Qed.

(** Bits below [n] and bits from [n] up do not meet, so [lor] adds. *)
Lemma lor_shiftl_add (a b n : Z) :
  0 <= n -> 0 <= a < 2 ^ n -> Z.lor a (Z.shiftl b n) = a + b * 2 ^ n.
Proof.
  intros Hn Ha.
  assert (Hdisj : Z.land a (Z.shiftl b n) = 0).
  { apply Z.bits_inj'. intros i Hi.
    rewrite Z.land_spec, Z.bits_0.
    destruct (Z.lt_ge_cases i n) as [Hlt|Hge].
    - rewrite (Z.shiftl_spec_low b n i Hlt). apply andb_false_r.
    - replace a with (a mod 2 ^ n) by (apply Z.mod_small; lia).
      rewrite Z.mod_pow2_bits_high by lia. reflexivity. }
  rewrite <- Z.lxor_lor by exact Hdisj.
  rewrite <- Z.add_nocarry_lxor by exact Hdisj.
  rewrite Z.shiftl_mul_pow2 by lia. reflexivity.
Qed.

Lemma Uint32_bytes (b0 b1 b2 b3 : byte) :
  is_byte b0 -> is_byte b1 -> is_byte b2 -> is_byte b3 ->
  Uint32 [b0; b1; b2; b3] = b0 * 2 ^ 24 + b1 * 2 ^ 16 + b2 * 2 ^ 8 + b3.
Proof.
  unfold is_byte, Uint32. intros H0 H1 H2 H3. simpl.
  rewrite (lor_shiftl_add b3 b2 8) by lia.
  rewrite (lor_shiftl_add _ b1 16) by lia.
  rewrite (lor_shiftl_add _ b0 24) by lia.
  lia.
Qed.

Lemma PutUint32_bytes (u : Z) :
  PutUint32 u
  = [ u / 2 ^ 24 mod 256; u / 2 ^ 16 mod 256; u / 2 ^ 8 mod 256; u mod 256 ].
Proof.
  unfold PutUint32, to_byte. rewrite !Z.shiftr_div_pow2 by lia. reflexivity.
Qed.

Lemma big_endian_digits (u : Z) :
  0 <= u < 2 ^ 32 ->
  (u / 2 ^ 24 mod 256) * 2 ^ 24 + (u / 2 ^ 16 mod 256) * 2 ^ 16
  + (u / 2 ^ 8 mod 256) * 2 ^ 8 + u mod 256 = u.
Proof.
  intros Hu.
  change (2 ^ 32) with 4294967296 in Hu.
  change (2 ^ 24) with 16777216. change (2 ^ 16) with 65536.
  change (2 ^ 8) with 256.
  Z.div_mod_to_equations. lia.
Qed.

Lemma Uint32_PutUint32 (u : Z) :
  0 <= u < 2 ^ 32 -> Uint32 (PutUint32 u) = u.
Proof.
  intros Hu. rewrite PutUint32_bytes.
  rewrite Uint32_bytes by (apply to_byte_is_byte).
  apply big_endian_digits, Hu.
Qed.

Lemma to_uint32_range (v : Z) : 0 <= to_uint32 v < 2 ^ 32.
Proof. unfold to_uint32. apply Z.mod_pos_bound. lia. Qed.

Lemma to_int32_to_uint32 (v : int32) :
  is_int32 v -> to_int32 (to_uint32 v) = v.
Proof.
  unfold is_int32, to_int32, to_uint32. intros Hv.
  rewrite Z.mod_mod by lia.
  change (2 ^ 31) with 2147483648 in *. change (2 ^ 32) with 4294967296.
  destruct (Z.ltb_spec (v mod 4294967296) 2147483648);
    Z.div_mod_to_equations; lia.
Qed.

Lemma to_int32_is_int32 (x : Z) : is_int32 (to_int32 x).
Proof.
  unfold is_int32, to_int32.
  pose proof (Z.mod_pos_bound x (2 ^ 32)) as Hb.
  change (2 ^ 31) with 2147483648 in *. change (2 ^ 32) with 4294967296 in *.
  destruct (Z.ltb_spec (x mod 4294967296) 2147483648); lia.
Qed.

(** ** Running programs in sequence *)

Section RunBind.
Context {P : Type} `{ReadWriter P}.

Lemma run_bind {A B : Type} (m : prog A) (f : A -> prog B) (w : world P) :
  run (bind m f) w
  = match run m w with
    | (t, None) => (t, None)
    | (t, Some (r, w')) => let '(t', res) := run (f r) w' in (t ++ t', res)
    end.
Proof.
  revert w. induction m as [r|a k IH]; intros w; simpl.
  - destruct (run (f r) w). reflexivity.
  - destruct (handle a w) as [[x w']|]; [|reflexivity].
    rewrite IH. destruct (run (k x) w') as [t [[r w'']|]]; [|reflexivity].
    destruct (run (f r) w''). reflexivity.
Qed.

End RunBind.


(** ** What [Exec] makes of a full reply *)

Section Replies.
Context {P : Type} `{ReadWriter P}.


Lemma result_Exec_reply (w w' : world P) (cmd typeNo motorOrBank : byte)
      (value : int32) (resp : list byte) :
  answers w (request cmd typeNo motorOrBank value) resp w' ->
  length resp = 9%nat ->
  result (Exec cmd typeNo motorOrBank value) w = Some (reply_outcome resp, w').
Proof.
  intros (Hm & s & s' & s'' & n & Hp & Hw & Hr & ->) Hlen.
  unfold result.
  rewrite (run_Exec_reply _ _ _ _ w s s' s'' n resp Hm Hp Hw Hr Hlen).
  reflexivity.
Qed.

(** With the mutex free, [Exec] returns. *)
Lemma Exec_returns (w : world P) (cmd typeNo motorOrBank : byte)
      (value : int32) :
  cmdMutex (obj w) = false ->
  exists r w', result (Exec cmd typeNo motorOrBank value) w = Some (r, w').
Proof.
  intros Hm. unfold result. destruct (port (obj w)) as [s|] eqn:Hp.
  - destruct (run_Exec_cases cmd typeNo motorOrBank value w s Hm Hp)
      as [(e & s' & ->)|[(e & s' & ->)|(d & s' & ->)]]; simpl; eauto.
  - rewrite (run_Exec_no_port _ _ _ _ w Hm Hp). simpl; eauto.
Qed.

End Replies.


Lemma frame_inv (b : list byte) :
  is_frame b ->
  exists b0 b1 b2 b3 b4 b5 b6 b7 b8,
    b = [b0; b1; b2; b3; b4; b5; b6; b7; b8] /\
    is_byte b0 /\ is_byte b1 /\ is_byte b2 /\ is_byte b3 /\ is_byte b4 /\
    is_byte b5 /\ is_byte b6 /\ is_byte b7 /\ is_byte b8.
Proof.
  intros [Hlen Hb].
  do 9 (destruct b as [|? b]; [discriminate Hlen|]).
  destruct b; [|discriminate Hlen].
  repeat match goal with
         | Hf : Forall _ (_ :: _) |- _ => apply Forall_cons in Hf as [? Hf]
         end.
  unfold is_byte in *. repeat eexists; lia.
Qed.

Lemma reply_outcome_invalid (resp : list byte) :
  ~ checksum_valid resp -> reply_outcome resp = (0, Some errorWrongChecksum).
Proof.
  unfold checksum_valid, reply_outcome, slice. intros Hc.
  change (take (8 - 0) (drop 0 resp)) with (take 8 resp).
  rewrite calcChecksum_sum. rewrite decide_True; [reflexivity|exact Hc].
Qed.

Lemma reply_outcome_valid (resp : list byte) :
  checksum_valid resp -> reply_outcome resp = status_outcome resp.
Proof.
  unfold checksum_valid, reply_outcome, slice. intros Hc.
  change (take (8 - 0) (drop 0 resp)) with (take 8 resp).
  rewrite calcChecksum_sum. rewrite decide_False; [reflexivity|].
  intros Hne. apply Hne. exact Hc.
Qed.



Lemma request_bytes (cmd typeNo motorOrBank : byte) (value : int32) :
  let u := to_uint32 value in
  let b4 := u / 2 ^ 24 mod 256 in
  let b5 := u / 2 ^ 16 mod 256 in
  let b6 := u / 2 ^ 8 mod 256 in
  let b7 := u mod 256 in
  request cmd typeNo motorOrBank value
  = [2; cmd; typeNo; motorOrBank; b4; b5; b6; b7;
     (2 + cmd + typeNo + motorOrBank + b4 + b5 + b6 + b7) mod 256].
Proof.
  intros u b4 b5 b6 b7. unfold request.
  rewrite calcChecksum_sum, PutUint32_bytes. simpl.
  subst u b4 b5 b6 b7. do 8 f_equal.
  apply (f_equal (fun x => [x mod 256])). lia.
Qed.

(** Changing one byte of a frame whose checksum is valid breaks it. *)
Lemma mod_256_shift (a x y : Z) :
  is_byte x -> is_byte y -> x <> y -> (a + x) mod 256 <> (a + y) mod 256.
Proof.
  unfold is_byte. intros Hx Hy Hne Heq.
  Z.div_mod_to_equations. lia.
Qed.

Lemma sum_bytes_insert (l : list byte) (i : nat) (x b : byte) :
  l !! i = Some x -> sum_bytes (<[i := b]> l) = sum_bytes l - x + b.
Proof.
  revert i. induction l as [|y l IH]; intros [|i] Hl; simpl in *;
    try discriminate.
  - injection Hl as ->. lia.
  - rewrite (IH i Hl). lia.
Qed.

Lemma flip_breaks_checksum (good : list byte) (i : nat) (b : byte) :
  is_frame good -> checksum_valid good -> (i < 9)%nat -> is_byte b ->
  good !! i <> Some b ->
  ~ checksum_valid (<[i := b]> good).
Proof.
  intros [Hlen Hbytes] Hvalid Hi Hb Hne. unfold checksum_valid in *.
  destruct (decide (i = 8%nat)) as [->|Hi8].
  - rewrite list_lookup_total_insert_eq by lia.
    rewrite take_insert_ge by lia. rewrite <- Hvalid. intros ->.
    apply Hne. apply list_lookup_lookup_total_lt. lia.
  - rewrite list_lookup_total_insert_ne by congruence.
    rewrite take_insert_lt by lia.
    destruct (lookup_lt_is_Some_2 good i) as [x Hx]; [lia|].
    assert (Hx8 : take 8 good !! i = Some x)
      by (rewrite lookup_take_lt by lia; exact Hx).
    rewrite (sum_bytes_insert _ i x b Hx8), Hvalid.
    assert (Hxb : x <> b) by congruence.
    pose proof (Forall_lookup_1 _ _ _ _ Hbytes Hx) as Hxbyte.
    intros Heq.
    apply (mod_256_shift (sum_bytes (take 8 good) - x) x b Hxbyte Hb Hxb).
    rewrite <- Heq. f_equal; lia.
Qed.

Section ExecProperties.
Context {P : Type} `{ReadWriter P}.

Lemma Exec_writes_request (w : world P) (s : P)
      (cmd typeNo motorOrBank : byte) (value : int32) :
  cmdMutex (obj w) = false -> port (obj w) = Some s ->
  List.filter is_write (trace (Exec cmd typeNo motorOrBank value) w)
  = [PortWrite (request cmd typeNo motorOrBank value)].
Proof.
  intros Hm Hp. unfold trace.
  destruct (run_Exec_cases cmd typeNo motorOrBank value w s Hm Hp)
    as [(e & s' & ->)|[(e & s' & ->)|(d & s' & ->)]]; reflexivity.
Qed.

(** C3. With a port attached, the one frame [Exec cmd typeNo motorOrBank
    value] writes is the 9 bytes [2; cmd; typeNo; motorOrBank; b4; b5; b6;
    b7; ck]: [b4..b7] are the big-endian bytes of [value] as a signed
    32-bit number (they weigh to [value mod 2^32], and read back as
    [int32] they give [value]), and [ck] is the sum of the eight bytes
    before it modulo 256. In particular [Exec 1 0 1 500] writes
    02 01 00 01 00 00 01 F4 F9. *)
Theorem C3_request_frame (w : world P) (s : P)
        (cmd typeNo motorOrBank : byte) (value : int32) :
  is_byte cmd -> is_byte typeNo -> is_byte motorOrBank -> is_int32 value ->
  cmdMutex (obj w) = false -> port (obj w) = Some s ->
  (exists b4 b5 b6 b7 ck : byte,
      List.filter is_write (trace (Exec cmd typeNo motorOrBank value) w)
      = [PortWrite [2; cmd; typeNo; motorOrBank; b4; b5; b6; b7; ck]]
      /\ is_frame [2; cmd; typeNo; motorOrBank; b4; b5; b6; b7; ck]
      /\ b4 * 2 ^ 24 + b5 * 2 ^ 16 + b6 * 2 ^ 8 + b7 = value mod 2 ^ 32
      /\ to_int32 (b4 * 2 ^ 24 + b5 * 2 ^ 16 + b6 * 2 ^ 8 + b7) = value
      /\ ck = (2 + cmd + typeNo + motorOrBank + b4 + b5 + b6 + b7) mod 256)
  /\ List.filter is_write (trace (Exec 1 0 1 500) w)
     = [PortWrite [0x02; 0x01; 0x00; 0x01; 0x00; 0x00; 0x01; 0xF4; 0xF9]].
Proof.
  intros Hc Ht Hb Hv Hm Hp. split.
  - pose proof (request_bytes cmd typeNo motorOrBank value) as Hreq.
    simpl in Hreq.
    pose proof (to_uint32_range value) as Hu.
    pose proof (big_endian_digits (to_uint32 value) Hu) as Hdig.
    eexists _, _, _, _, _. split; [|split; [|split; [|split]]].
    + rewrite (Exec_writes_request w s _ _ _ _ Hm Hp), Hreq. reflexivity.
    + split; [reflexivity|].
      repeat apply Forall_cons_2; try apply Forall_nil_2;
        try assumption; try apply to_byte_is_byte.
      unfold is_byte; lia.
    + rewrite Hdig. reflexivity.
    + rewrite Hdig. apply to_int32_to_uint32, Hv.
    + reflexivity.
  - rewrite (Exec_writes_request w s _ _ _ _ Hm Hp). reflexivity.
Qed.

(** C1, amended. For a 9-byte reply with a valid checksum:
    every status byte from 100 up (100, 101 and also 102..255) is success
    and returns the decoded value; 1..6 give their named errors; 0 and
    7..99 give the "board returned error code" error that carries the raw
    status byte, with result 0. *)
Theorem C1_status_classification (w w' : world P)
        (cmd typeNo motorOrBank : byte) (value : int32) (resp : list byte) :
  answers w (request cmd typeNo motorOrBank value) resp w' ->
  is_frame resp -> checksum_valid resp ->
  let status := resp !!! 2%nat in
  let returned := result (Exec cmd typeNo motorOrBank value) w in
  (100 <= status ->
   returned = Some ((to_int32 (Uint32 (slice 4 8 resp)), None), w'))
  /\ (status = 1 -> returned = Some ((0, Some errorWrongChecksum), w'))
  /\ (status = 2 -> returned = Some ((0, Some errorInvalidCommand), w'))
  /\ (status = 3 -> returned = Some ((0, Some errorWrongType), w'))
  /\ (status = 4 -> returned = Some ((0, Some errorInvalidType), w'))
  /\ (status = 5 ->
      returned = Some ((0, Some errorConfigurationEEPROMLocked), w'))
  /\ (status = 6 -> returned = Some ((0, Some errorCommandNotAvailable), w'))
  /\ (status = 0 \/ 7 <= status < 100 ->
      returned = Some ((0, Some (errorBoardCode status)), w')).
Proof.
  intros Ha [Hlen Hb] Hc status returned. subst returned.
  rewrite (result_Exec_reply w w' _ _ _ _ resp Ha Hlen).
  rewrite (reply_outcome_valid resp Hc).
  unfold status_outcome, getError. fold status.
  repeat split; intros Hs; repeat case_decide; try reflexivity; lia.
Qed.

(** C4, amended. For a 9-byte reply whose trailing byte differs from the
    sum modulo 256 of the first 8 bytes, [Exec] returns the "wrong
    checksum" error. When the trailing byte matches, the result is the one
    of the status test that follows, and that is the same error when the
    status byte is 1: so [Exec] returns the "wrong checksum" error exactly
    when the checksum does not match only for replies whose status byte
    is not 1. A reply obtained from a checksum-valid frame by changing
    any single one of its 9 bytes is rejected with the "wrong checksum"
    error. *)
Theorem C4_checksum_iff (w w' : world P)
        (cmd typeNo motorOrBank : byte) (value : int32) (resp : list byte) :
  answers w (request cmd typeNo motorOrBank value) resp w' ->
  is_frame resp ->
  let returned := result (Exec cmd typeNo motorOrBank value) w in
  (~ checksum_valid resp ->
   returned = Some ((0, Some errorWrongChecksum), w'))
  /\ (checksum_valid resp -> returned = Some (status_outcome resp, w'))
  /\ (resp !!! 2%nat <> 1 ->
      (returned = Some ((0, Some errorWrongChecksum), w')
       <-> ~ checksum_valid resp))
  /\ (forall (good : list byte) (i : nat) (b : byte),
        is_frame good -> checksum_valid good ->
        (i < 9)%nat -> good !! i <> Some b ->
        resp = <[i := b]> good ->
        returned = Some ((0, Some errorWrongChecksum), w')).
Proof.
  intros Ha [Hlen Hb] returned. subst returned.
  rewrite (result_Exec_reply w w' _ _ _ _ resp Ha Hlen).
  assert (Hbad : ~ checksum_valid resp ->
                 Some (reply_outcome resp, w')
                 = Some ((0, Some errorWrongChecksum), w')).
  { intros Hc. rewrite (reply_outcome_invalid resp Hc). reflexivity. }
  split; [exact Hbad|]. split; [|split].
  - intros Hc. rewrite (reply_outcome_valid resp Hc). reflexivity.
  - intros Hs. split; [|exact Hbad].
    intros Heq Hc. rewrite (reply_outcome_valid resp Hc) in Heq.
    unfold status_outcome, getError in Heq.
    repeat case_decide; try discriminate; congruence.
  - intros good i b Hgood Hvalid Hi Hne ->. apply Hbad.
    eapply flip_breaks_checksum; eauto.
    apply (Forall_lookup_1 is_byte _ i b) in Hb; [exact Hb|].
    apply list_lookup_insert_eq. destruct Hgood as [-> _]. exact Hi.
Qed.

(** C5. A 9-byte reply whose trailing byte does not match the sum of its
    first 8 bytes makes [Exec] return (0, "wrong checksum"), whatever its
    status byte is; the status byte decides the result only when the
    checksum is valid. *)
Theorem C5_checksum_before_status (w w' : world P)
        (cmd typeNo motorOrBank : byte) (value : int32)
        (b0 b1 status b3 b4 b5 b6 b7 ck : byte) :
  let resp := [b0; b1; status; b3; b4; b5; b6; b7; ck] in
  answers w (request cmd typeNo motorOrBank value) resp w' ->
  Forall is_byte resp ->
  (ck <> (b0 + b1 + status + b3 + b4 + b5 + b6 + b7) mod 256 ->
   result (Exec cmd typeNo motorOrBank value) w
   = Some ((0, Some errorWrongChecksum), w'))
  /\ (ck = (b0 + b1 + status + b3 + b4 + b5 + b6 + b7) mod 256 ->
      result (Exec cmd typeNo motorOrBank value) w
      = Some (if decide (status < 100) then (0, getError status)
              else (to_int32 (Uint32 [b4; b5; b6; b7]), None), w')).
Proof.
  intros resp Ha _.
  rewrite (result_Exec_reply w w' _ _ _ _ resp Ha eq_refl).
  assert (Hsum : sum_bytes (take 8 resp) mod 256
                 = (b0 + b1 + status + b3 + b4 + b5 + b6 + b7) mod 256)
    by (simpl; f_equal; lia).
  split; intros Hck.
  - rewrite reply_outcome_invalid; [reflexivity|].
    unfold checksum_valid. rewrite Hsum. exact Hck.
  - rewrite reply_outcome_valid; [reflexivity|].
    unfold checksum_valid. rewrite Hsum. exact Hck.
Qed.

(** C6. A reply with status 100 that carries [v] big-endian in bytes
    4..8 (two's complement: the four bytes weigh to [v mod 2^32]) and a
    valid checksum makes [Exec] return [(v, nil)], for every [v] of the
    int32 range. *)
Theorem C6_value_round_trip (w w' : world P)
        (cmd typeNo motorOrBank : byte) (value : int32)
        (v : int32) (b0 b1 b3 b4 b5 b6 b7 ck : byte) :
  let resp := [b0; b1; 100; b3; b4; b5; b6; b7; ck] in
  answers w (request cmd typeNo motorOrBank value) resp w' ->
  Forall is_byte resp ->
  is_int32 v ->
  b4 * 2 ^ 24 + b5 * 2 ^ 16 + b6 * 2 ^ 8 + b7 = v mod 2 ^ 32 ->
  ck = (b0 + b1 + 100 + b3 + b4 + b5 + b6 + b7) mod 256 ->
  result (Exec cmd typeNo motorOrBank value) w = Some ((v, None), w').
Proof.
  intros resp Ha Hb Hv Hval Hck.
  rewrite (result_Exec_reply w w' _ _ _ _ resp Ha eq_refl).
  rewrite reply_outcome_valid.
  - unfold status_outcome. rewrite decide_False by (simpl; lia).
    change (slice 4 8 resp) with [b4; b5; b6; b7].
    subst resp.
    repeat match goal with
           | Hf : Forall _ (_ :: _) |- _ =>
             apply Forall_cons_1 in Hf as [? Hf]
           end.
    rewrite Uint32_bytes by assumption. rewrite Hval.
    change (v mod 2 ^ 32) with (to_uint32 v).
    rewrite (to_int32_to_uint32 v Hv). reflexivity.
  - unfold checksum_valid. simpl. rewrite Hck. f_equal; lia.
Qed.

(** C8. Whenever [Exec] returns a non-nil error, the [int32] it returns
    with it is 0. *)
Theorem C8_error_result_zero (w w' : world P)
        (cmd typeNo motorOrBank : byte) (value : int32)
        (r : int32) (e : error) :
  result (Exec cmd typeNo motorOrBank value) w = Some ((r, Some e), w') ->
  r = 0.
Proof.
  unfold result.
  destruct (cmdMutex (obj w)) eqn:Hm.
  { rewrite (run_Exec_locked _ _ _ _ w Hm). discriminate. }
  destruct (port (obj w)) as [s|] eqn:Hp.
  - destruct (run_Exec_cases cmd typeNo motorOrBank value w s Hm Hp)
      as [(e' & s' & ->)|[(e' & s' & ->)|(d & s' & ->)]]; simpl;
      intros Heq; try congruence.
    unfold reply_outcome, status_outcome in Heq.
    repeat case_decide; congruence.
  - rewrite (run_Exec_no_port _ _ _ _ w Hm Hp). simpl. congruence.
Qed.

(** C10. A checksum-valid reply with status byte 1 and a reply whose
    checksum does not match make [Exec] return the same thing: result 0
    and the one error value [errorWrongChecksum], "wrong checksum". *)
Theorem C10_status_1_is_wrong_checksum (w1 w1' w2 w2' : world P)
        (cmd1 typeNo1 motorOrBank1 : byte) (value1 : int32)
        (cmd2 typeNo2 motorOrBank2 : byte) (value2 : int32)
        (resp1 resp2 : list byte) :
  answers w1 (request cmd1 typeNo1 motorOrBank1 value1) resp1 w1' ->
  is_frame resp1 -> checksum_valid resp1 -> resp1 !!! 2%nat = 1 ->
  answers w2 (request cmd2 typeNo2 motorOrBank2 value2) resp2 w2' ->
  is_frame resp2 -> ~ checksum_valid resp2 ->
  fst <$> result (Exec cmd1 typeNo1 motorOrBank1 value1) w1
  = Some (0, Some errorWrongChecksum)
  /\ fst <$> result (Exec cmd2 typeNo2 motorOrBank2 value2) w2
     = Some (0, Some errorWrongChecksum)
  /\ Error errorWrongChecksum = "wrong checksum".
Proof.
  intros Ha1 [Hl1 _] Hc1 Hs1 Ha2 [Hl2 _] Hc2.
  rewrite (result_Exec_reply w1 w1' _ _ _ _ resp1 Ha1 Hl1).
  rewrite (result_Exec_reply w2 w2' _ _ _ _ resp2 Ha2 Hl2).
  rewrite (reply_outcome_valid resp1 Hc1), (reply_outcome_invalid resp2 Hc2).
  unfold status_outcome. rewrite Hs1. repeat split.
Qed.

Lemma run_Exec_each_no_port (w : world P)
      (calls : list (byte * byte * byte * int32)) :
  cmdMutex (obj w) = false -> port (obj w) = None ->
  exists t,
    run (Exec_each calls) w
    = (t, Some (replicate (length calls) (0, Some errorPortNotOpen), w))
    /\ Forall (fun a => is_io a = false) t.
Proof.
  intros Hm Hp. induction calls as [|[[[c t] b] v] calls (tr & IH & Hio)].
  - exists []. split; [reflexivity|constructor].
  - exists ([MutexLock; PortIsNil; MutexUnlock] ++ tr).
    cbn [Exec_each]. unfold mbind, prog_bind.
    rewrite run_bind, (run_Exec_no_port c t b v w Hm Hp).
    rewrite run_bind, IH. simpl. rewrite app_nil_r. split; [reflexivity|].
    repeat (constructor; [reflexivity|]). exact Hio.
Qed.

(** C7. With no transport attached, [Exec] returns the "port not open"
    error with result 0 after taking and releasing the mutex, without a
    write or a read on any port, and leaves the object as it was: so
    does every further call, whatever its arguments, for as long as no
    port is attached. *)
Theorem C7_not_connected (w : world P) :
  cmdMutex (obj w) = false -> port (obj w) = None ->
  (forall (cmd typeNo motorOrBank : byte) (value : int32),
      run (Exec cmd typeNo motorOrBank value) w
      = ([MutexLock; PortIsNil; MutexUnlock],
         Some ((0, Some errorPortNotOpen), w)))
  /\ (forall calls : list (byte * byte * byte * int32),
        result (Exec_each calls) w
        = Some (replicate (length calls) (0, Some errorPortNotOpen), w)
        /\ Forall (fun a => is_io a = false) (trace (Exec_each calls) w)).
Proof.
  intros Hm Hp. split.
  - intros. apply run_Exec_no_port; assumption.
  - intros calls.
    destruct (run_Exec_each_no_port w calls Hm Hp) as (t & Hrun & Hio).
    unfold result, trace. rewrite Hrun. split; [reflexivity|exact Hio].
Qed.

(** C2. What the code does: no run of [Exec] calls [LogSend] or
    [LogRecv], and what the logger has printed is the same after the
    call as before; also on a call that writes its frame and reads a full
    reply, here [Exec 1 0 1 500] with a [DefaultLogger] answered by
    02 01 64 01 00 00 00 00 68. *)
Theorem C2_observer_never_called (w : world P)
        (cmd typeNo motorOrBank : byte) (value : int32) :
  Forall (fun a => is_log a = false)
         (trace (Exec cmd typeNo motorOrBank value) w)
  /\ match result (Exec cmd typeNo motorOrBank value) w with
     | Some (_, w') => stdout w' = stdout w
     | None => True
     end
  /\ (let w0 := board (Some DefaultLogger) [2; 1; 100; 1; 0; 0; 0; 0; 104] in
      trace (Exec 1 0 1 500) w0
      = [MutexLock; PortIsNil; PortWrite [2; 1; 0; 1; 0; 0; 1; 244; 249];
         PortReadFull zeros9; MutexUnlock]
      /\ (fun r => (fst r, stdout (snd r))) <$> result (Exec 1 0 1 500) w0
         = Some ((0, None), [])).
Proof.
  split; [|split; [|split; reflexivity]]; unfold trace, result.
  - destruct (cmdMutex (obj w)) eqn:Hm.
    { rewrite (run_Exec_locked _ _ _ _ w Hm). constructor. }
    destruct (port (obj w)) as [s|] eqn:Hp.
    + destruct (run_Exec_cases cmd typeNo motorOrBank value w s Hm Hp)
        as [(e' & s' & ->)|[(e' & s' & ->)|(d & s' & ->)]]; simpl;
        repeat (constructor; [reflexivity|]); constructor.
    + rewrite (run_Exec_no_port _ _ _ _ w Hm Hp). simpl.
      repeat (constructor; [reflexivity|]); constructor.
  - destruct (cmdMutex (obj w)) eqn:Hm.
    { rewrite (run_Exec_locked _ _ _ _ w Hm). exact I. }
    destruct (port (obj w)) as [s|] eqn:Hp.
    + destruct (run_Exec_cases cmd typeNo motorOrBank value w s Hm Hp)
        as [(e' & s' & ->)|[(e' & s' & ->)|(d & s' & ->)]]; reflexivity.
    + rewrite (run_Exec_no_port _ _ _ _ w Hm Hp). reflexivity.
Qed.

End ExecProperties.

(** ** Concrete exchanges *)

(** Discharges [answers] on a scripted port by running the script. *)
Ltac script_answers :=
  split; [reflexivity|]; eexists _, _, _, _; repeat split; reflexivity.

Ltac bytes :=
  repeat apply Forall_cons_2; try apply Forall_nil_2; unfold is_byte; lia.

(** C1, as stated, fails: the checksum-valid reply 02 01 66 01 00 00 00 07
    71 has status byte 102, which is none of 100, 101, 1..6, and [Exec]
    returns [(7, nil)], a success, not an error carrying 102. *)
Lemma C1_status_102_is_success :
  let resp := [2; 1; 102; 1; 0; 0; 0; 7; 113] in
  is_frame resp /\ checksum_valid resp /\ resp !!! 2%nat = 102
  /\ fst <$> result (Exec 1 0 1 500) (board None resp) = Some (7, None)
  /\ fst <$> result (Exec 1 0 1 500) (board None resp)
     <> Some (0, Some (errorBoardCode 102)).
Proof.
  intros resp. split; [split; [reflexivity|bytes]|].
  split; [reflexivity|]. split; [reflexivity|].
  split; [reflexivity|]. discriminate.
Qed.

Lemma C1_status_classification_witness :
  exists w',
    result (Exec 5 1 0 7) (board None [2; 1; 5; 1; 0; 0; 0; 0; 9])
    = Some ((0, Some errorConfigurationEEPROMLocked), w')
    /\ result (Exec 5 1 0 7) (board None [2; 1; 200; 1; 0; 0; 0; 3; 207])
       = Some ((3, None), w')
    /\ result (Exec 5 1 0 7) (board None [2; 1; 42; 1; 0; 0; 0; 3; 49])
       = Some ((0, Some (errorBoardCode 42)), w').
Proof.
  eexists. split; [|split].
  - refine (proj1 (proj2 (proj2 (proj2 (proj2 (proj2
      (C1_status_classification (board None [2; 1; 5; 1; 0; 0; 0; 0; 9]) _
         5 1 0 7 [2; 1; 5; 1; 0; 0; 0; 0; 9] _ _ _)))))) _).
    + script_answers.
    + split; [reflexivity|bytes].
    + reflexivity.
    + reflexivity.
  - refine (proj1
      (C1_status_classification (board None [2; 1; 200; 1; 0; 0; 0; 3; 207]) _
         5 1 0 7 [2; 1; 200; 1; 0; 0; 0; 3; 207] _ _ _) _).
    + script_answers.
    + split; [reflexivity|bytes].
    + reflexivity.
    + simpl; lia.
  - refine (proj2 (proj2 (proj2 (proj2 (proj2 (proj2 (proj2
      (C1_status_classification (board None [2; 1; 42; 1; 0; 0; 0; 3; 49]) _
         5 1 0 7 [2; 1; 42; 1; 0; 0; 0; 3; 49] _ _ _))))))) _).
    + script_answers.
    + split; [reflexivity|bytes].
    + reflexivity.
    + simpl; lia.
Defined.

Lemma C3_request_frame_witness :
  exists b4 b5 b6 b7 ck : byte,
    List.filter is_write (trace (Exec 6 1 0 (-2)) (board None []))
    = [PortWrite [2; 6; 1; 0; b4; b5; b6; b7; ck]]
    /\ is_frame [2; 6; 1; 0; b4; b5; b6; b7; ck]
    /\ b4 * 2 ^ 24 + b5 * 2 ^ 16 + b6 * 2 ^ 8 + b7 = (-2) mod 2 ^ 32
    /\ to_int32 (b4 * 2 ^ 24 + b5 * 2 ^ 16 + b6 * 2 ^ 8 + b7) = -2
    /\ ck = (2 + 6 + 1 + 0 + b4 + b5 + b6 + b7) mod 256.
Proof.
  refine (proj1 (C3_request_frame (board None []) (mkScript [] None [])
                   6 1 0 (-2) _ _ _ _ _ _));
    unfold is_byte, is_int32; try lia; reflexivity.
Defined.

(** C4, as stated, fails: the reply 02 01 01 06 00 00 00 00 0A has a
    valid checksum (its trailing byte is the sum of the first 8) and
    status byte 1, and [Exec] returns the "wrong checksum" error for it;
    so that error does not tell that the trailing byte differs from the
    sum. *)
Lemma C4_valid_checksum_wrong_checksum :
  let resp := [2; 1; 1; 6; 0; 0; 0; 0; 10] in
  is_frame resp /\ checksum_valid resp
  /\ fst <$> result (Exec 6 1 0 0) (board None resp)
     = Some (0, Some errorWrongChecksum)
  /\ ~ (fst <$> result (Exec 6 1 0 0) (board None resp)
        = Some (0, Some errorWrongChecksum)
        <-> ~ checksum_valid resp).
Proof.
  intros resp.
  assert (Hvalid : checksum_valid resp) by reflexivity.
  assert (Hres : fst <$> result (Exec 6 1 0 0) (board None resp)
                 = Some (0, Some errorWrongChecksum)) by reflexivity.
  split; [split; [reflexivity|bytes]|].
  split; [exact Hvalid|]. split; [exact Hres|].
  intros [Hiff _]. exact (Hiff Hres Hvalid).
Qed.

Lemma C4_checksum_iff_witness :
  exists w',
    result (Exec 6 1 0 0) (board None [2; 1; 100; 6; 0; 0; 0; 9; 119])
    = Some ((0, Some errorWrongChecksum), w').
Proof.
  eexists.
  refine (proj2 (proj2 (proj2
    (C4_checksum_iff (board None [2; 1; 100; 6; 0; 0; 0; 9; 119]) _
       6 1 0 0 [2; 1; 100; 6; 0; 0; 0; 9; 119] _ _)))
    [2; 1; 100; 6; 0; 0; 0; 9; 118] 8%nat 119 _ _ _ _ _).
  - script_answers.
  - split; [reflexivity|bytes].
  - split; [reflexivity|bytes].
  - reflexivity.
  - lia.
  - discriminate.
  - reflexivity.
Defined.

Lemma C5_checksum_before_status_witness :
  exists w',
    result (Exec 6 1 0 0) (board None [2; 1; 5; 6; 0; 0; 0; 9; 0])
    = Some ((0, Some errorWrongChecksum), w').
Proof.
  eexists.
  refine (proj1
    (C5_checksum_before_status (board None [2; 1; 5; 6; 0; 0; 0; 9; 0]) _
       6 1 0 0 2 1 5 6 0 0 0 9 0 _ _) _).
  - script_answers.
  - bytes.
  - discriminate.
Defined.

Lemma C6_value_round_trip_witness :
  exists w',
    result (Exec 6 1 0 0) (board None [2; 1; 100; 6; 128; 0; 0; 0; 237])
    = Some ((- 2 ^ 31, None), w').
Proof.
  eexists.
  refine (C6_value_round_trip
            (board None [2; 1; 100; 6; 128; 0; 0; 0; 237]) _
            6 1 0 0 (- 2 ^ 31) 2 1 6 128 0 0 0 237 _ _ _ _ _).
  - script_answers.
  - bytes.
  - unfold is_int32; lia.
  - reflexivity.
  - reflexivity.
Defined.

Lemma C7_not_connected_witness :
  run (Exec 1 0 1 500) (mkWorld (tmcl (@NewSerial Script)) [])
  = ([MutexLock; PortIsNil; MutexUnlock],
     Some ((0, Some errorPortNotOpen), mkWorld (tmcl (@NewSerial Script)) [])).
Proof.
  refine (proj1 (C7_not_connected (mkWorld (tmcl (@NewSerial Script)) []) _ _)
            1 0 1 500); reflexivity.
Defined.

Lemma C8_error_result_zero_witness :
  result (Exec 1 0 1 500) (board None [2; 1; 3])
  = Some ((0, Some (errorTransport "unexpected EOF")),
          mkWorld (NewTMCL (Some (mkScript [request 1 0 1 500] None [])) None)
                  [])
  /\ (0 : Z) = 0.
Proof.
  split; [reflexivity|].
  refine (C8_error_result_zero (board None [2; 1; 3]) _ 1 0 1 500 0
            (errorTransport "unexpected EOF") _).
  reflexivity.
Defined.

Lemma C10_status_1_is_wrong_checksum_witness :
  fst <$> result (Exec 6 1 0 0) (board None [2; 1; 1; 6; 0; 0; 0; 0; 10])
  = fst <$> result (Exec 6 1 0 0) (board None [2; 1; 100; 6; 0; 0; 0; 0; 10]).
Proof.
  destruct (C10_status_1_is_wrong_checksum
              (board None [2; 1; 1; 6; 0; 0; 0; 0; 10])
              (mkWorld (NewTMCL (Some (mkScript [request 6 1 0 0] None [])) None) [])
              (board None [2; 1; 100; 6; 0; 0; 0; 0; 10])
              (mkWorld (NewTMCL (Some (mkScript [request 6 1 0 0] None [])) None) [])
              6 1 0 0 6 1 0 0
              [2; 1; 1; 6; 0; 0; 0; 0; 10] [2; 1; 100; 6; 0; 0; 0; 0; 10])
    as (H1 & H2 & _).
  - script_answers.
  - split; [reflexivity|bytes].
  - reflexivity.
  - reflexivity.
  - script_answers.
  - split; [reflexivity|bytes].
  - discriminate.
  - rewrite H1, H2. reflexivity.
Defined.


(** ** Mutual exclusion *)

(** Walks a program tree, one action at a time. *)
Ltac walk_inside :=
  repeat (simpl;
          match goal with
          | |- is_ret _ => exact I
          | |- True => exact I
          | |- _ /\ _ => split; [discriminate|]
          | |- forall _ : unit, _ => intros []
          | |- forall _ : bool, _ => intros [|]
          | |- forall _ : (_ * option _)%type, _ => intros [? [?|]]
          | |- context [decide ?Q] => destruct (decide Q)
          end).

Lemma Exec_entry (cmd typeNo motorOrBank : byte) (value : int32) :
  entry (Exec cmd typeNo motorOrBank value).
Proof.
  unfold Exec, defer, call. simpl. split; [reflexivity|].
  walk_inside.
Qed.

Lemma in_flight_lock (h : list (nat * action)) (i : nat) :
  in_flight ((i, MutexLock) :: h) i = true.
Proof. simpl. rewrite decide_True by reflexivity. reflexivity. Qed.

Lemma in_flight_unlock (h : list (nat * action)) (i : nat) :
  in_flight ((i, MutexUnlock) :: h) i = false.
Proof. simpl. rewrite decide_True by reflexivity. reflexivity. Qed.

Lemma in_flight_ne (h : list (nat * action)) (i j : nat) (a : action) :
  j <> i -> in_flight ((j, a) :: h) i = in_flight h i.
Proof. intros Hne. simpl. rewrite decide_False by exact Hne. reflexivity. Qed.

Lemma in_flight_other (h : list (nat * action)) (i j : nat) (a : action) :
  a <> MutexLock -> a <> MutexUnlock ->
  in_flight ((j, a) :: h) i = in_flight h i.
Proof.
  intros Hl Hu. simpl. destruct (decide (j = i)); [|reflexivity].
  destruct a; congruence.
Qed.

Section Exclusion.
Context {P : Type} `{ReadWriter P}.

Lemma handle_lock (w w' : world P) (x : unit) :
  handle MutexLock w = Some (x, w') ->
  cmdMutex (obj w) = false /\ cmdMutex (obj w') = true.
Proof.
  simpl. destruct (cmdMutex (obj w)); [discriminate|].
  intros Heq. inversion Heq; subst. split; reflexivity.
Qed.

Lemma handle_unlock (w w' : world P) (x : unit) :
  handle MutexUnlock w = Some (x, w') -> cmdMutex (obj w') = false.
Proof.
  simpl. destruct (cmdMutex (obj w)); [|discriminate].
  intros Heq. inversion Heq; subst. reflexivity.
Qed.

Lemma handle_other (a : action) (w w' : world P) (x : answer a) :
  a <> MutexLock -> a <> MutexUnlock ->
  handle a w = Some (x, w') -> cmdMutex (obj w') = cmdMutex (obj w).
Proof.
  intros Hl Hu. destruct a; simpl; try congruence;
    repeat match goal with
           | |- context [match ?e with _ => _ end] => destruct e
           end;
    try discriminate; intros Heq; inversion Heq; subst; reflexivity.
Qed.


Lemma inv_free (h : list (nat * action)) (c : pool * world P) :
  inv h c -> cmdMutex (obj c.2) = false -> forall j, in_flight h j = false.
Proof.
  intros (Hth & _ & _) Hm j. specialize (Hth j). unfold thread_ok in Hth.
  destruct (c.1 !! j) as [p|]; [|exact Hth].
  destruct (in_flight h j); [|reflexivity].
  destruct Hth as [_ Hlocked]. congruence.
Qed.

Lemma inv_spawn (calls : list (byte * byte * byte * int32)) (w0 : world P) :
  cmdMutex (obj w0) = false -> inv [] (spawn calls, w0).
Proof.
  intros Hm. split; [|split]; cbn [fst snd in_flight].
  - intros i. unfold thread_ok, spawn. rewrite list_lookup_fmap.
    destruct (calls !! i) as [[[[c t] b] v]|]; simpl; [|reflexivity].
    left. apply Exec_entry.
  - discriminate.
  - congruence.
Qed.

(** One step keeps the invariant; a [Lock] is taken only when no caller
    is in flight, and any other action is done by a caller in flight. *)
Lemma inv_step (h : list (nat * action)) (c c' : pool * world P)
      (i : nat) (a : action) :
  inv h c -> step c (i, a) c' ->
  inv ((i, a) :: h) c'
  /\ (if decide (a = MutexLock) then forall j, in_flight h j = false
      else in_flight h i = true).
Proof.
  intros Hinv Hstep. inversion Hstep as [ts w w' i' a' k x Hlook Hhandle];
    subst.
  pose proof Hinv as (Hth & Huniq & Hheld). cbn [fst snd] in *.
  pose proof (Hth i) as Hi. rewrite Hlook in Hi. cbn [thread_ok] in Hi.
  pose proof (lookup_lt_Some _ _ _ Hlook) as Hlen.
  destruct (in_flight h i) eqn:Hfl.
  - destruct Hi as [[Hnl Hk] Hm]. specialize (Hk x).
    rewrite (decide_False (P := a = MutexLock)) by exact Hnl.
    split; [|reflexivity].
    assert (Hothers : forall j, j <> i -> in_flight h j = false).
    { intros j Hji. destruct (in_flight h j) eqn:Hj; [|reflexivity].
      exfalso. apply Hji. apply Huniq; assumption. }
    destruct (decide (a = MutexUnlock)) as [->|Hnu].
    + pose proof (handle_unlock w w' x Hhandle) as Hm'.
      split; [|split]; cbn [fst snd].
      * intros j. destruct (decide (j = i)) as [->|Hji].
        -- rewrite list_lookup_insert_eq by exact Hlen.
           unfold thread_ok. rewrite in_flight_unlock. right. exact Hk.
        -- rewrite list_lookup_insert_ne by congruence.
           specialize (Hth j). unfold thread_ok in *.
           rewrite in_flight_ne by congruence.
           rewrite (Hothers j Hji) in *. exact Hth.
      * intros j1 j2 H1 H2. exfalso.
        destruct (decide (j1 = i)) as [->|Hji].
        -- rewrite in_flight_unlock in H1. discriminate.
        -- rewrite in_flight_ne in H1 by congruence.
           rewrite (Hothers j1 Hji) in H1. discriminate.
      * congruence.
    + pose proof (handle_other a w w' x Hnl Hnu Hhandle) as Hm'.
      split; [|split]; cbn [fst snd].
      * intros j. unfold thread_ok.
        rewrite (in_flight_other h j i a Hnl Hnu).
        destruct (decide (j = i)) as [->|Hji].
        -- rewrite list_lookup_insert_eq by exact Hlen.
           rewrite Hfl. split; [exact Hk|congruence].
        -- rewrite list_lookup_insert_ne by congruence.
           specialize (Hth j). unfold thread_ok in Hth.
           rewrite Hm'. exact Hth.
      * intros j1 j2.
        rewrite !(in_flight_other h _ i a Hnl Hnu). apply Huniq.
      * intros _. exists i. rewrite (in_flight_other h i i a Hnl Hnu).
        exact Hfl.
  - destruct Hi as [[-> Hk]|[]]. specialize (Hk x).
    rewrite (decide_True (P := MutexLock = MutexLock)) by reflexivity.
    destruct (handle_lock w w' x Hhandle) as [Hm Hm'].
    pose proof (inv_free h (ts, w) Hinv Hm) as Hnone.
    split; [|exact Hnone].
    split; [|split]; cbn [fst snd].
    + intros j. destruct (decide (j = i)) as [->|Hji].
      * rewrite list_lookup_insert_eq by exact Hlen.
        unfold thread_ok. rewrite in_flight_lock. split; assumption.
      * rewrite list_lookup_insert_ne by congruence.
        specialize (Hth j). unfold thread_ok in *.
        rewrite in_flight_ne by congruence.
        rewrite (Hnone j) in *. exact Hth.
    + intros j1 j2 H1 H2.
      destruct (decide (j1 = i)) as [->|Hj1];
        destruct (decide (j2 = i)) as [->|Hj2]; try reflexivity; exfalso.
      * rewrite in_flight_ne, Hnone in H2 by congruence. discriminate.
      * rewrite in_flight_ne, Hnone in H1 by congruence. discriminate.
      * rewrite in_flight_ne, Hnone in H1 by congruence. discriminate.
    + intros _. exists i. apply in_flight_lock.
Qed.

Lemma reach_inv (c0 c : pool * world P) (h : list (nat * action)) :
  inv [] c0 -> reach c0 h c -> inv h c.
Proof.
  intros H0 Hreach. induction Hreach as [|h c [i a] c' _ IH Hstep];
    [exact H0|].
  exact (proj1 (inv_step h c c' i a IH Hstep)).
Qed.

(** C9. Callers of [Exec] on one object, interleaved action by action
    in any order. [Exec] locks the mutex first and returns only right
    after unlocking it. In every reachable state at most one caller is
    in flight (between its [Lock] and its [Unlock]); a caller takes the
    lock only when none is in flight, and every other action of an
    exchange (the port test, the write, the read, the unlock) is done by
    the caller in flight; a caller that has returned is not in flight,
    and the mutex is held only while a caller is in flight. *)
Theorem C9_one_exchange_at_a_time
        (calls : list (byte * byte * byte * int32)) (w0 w : world P)
        (h : list (nat * action)) (ts : pool) :
  cmdMutex (obj w0) = false ->
  reach (spawn calls, w0) h (ts, w) ->
  (forall cmd typeNo motorOrBank value,
      entry (Exec cmd typeNo motorOrBank value))
  /\ (forall i j, in_flight h i = true -> in_flight h j = true -> i = j)
  /\ (forall i a c', step (ts, w) (i, a) c' ->
        if decide (a = MutexLock) then forall j, in_flight h j = false
        else in_flight h i = true)
  /\ (forall i r, ts !! i = Some (Ret r) -> in_flight h i = false)
  /\ (cmdMutex (obj w) = true <-> exists i, in_flight h i = true).
Proof.
  intros Hm Hreach.
  pose proof (reach_inv _ _ _ (inv_spawn calls w0 Hm) Hreach) as Hinv.
  split; [exact Exec_entry|].
  split; [exact (proj1 (proj2 Hinv))|].
  split; [intros i a c' Hstep; exact (proj2 (inv_step h _ c' i a Hinv Hstep))|].
  split.
  - intros i r Hlook. destruct Hinv as (Hth & _ & _). specialize (Hth i).
    simpl in Hth. rewrite Hlook in Hth. unfold thread_ok in Hth.
    destruct (in_flight h i); [|reflexivity].
    destruct Hth as [[] _].
  - split; [exact (proj2 (proj2 Hinv))|].
    intros [i Hi]. destruct (cmdMutex (obj w)) eqn:Hw; [reflexivity|].
    rewrite (inv_free h (ts, w) Hinv Hw i) in Hi. discriminate.
Qed.

End Exclusion.


Lemma two_calls_reach :
  exists ts w,
    reach (spawn two_calls, board None [2; 1; 100; 1; 0; 0; 0; 0; 104])
          two_calls_history (ts, w).
Proof.
  eexists _, _. unfold two_calls_history.
  eapply reach_step;
    [eapply reach_step; [eapply reach_step; [apply reach_nil|]|]|];
    (eapply step_thread; reflexivity).
Qed.

Lemma C9_one_exchange_at_a_time_witness :
  exists ts w,
    reach (spawn two_calls, board None [2; 1; 100; 1; 0; 0; 0; 0; 104])
          two_calls_history (ts, w)
    /\ in_flight two_calls_history 0 = true
    /\ (forall i j,
          in_flight two_calls_history i = true ->
          in_flight two_calls_history j = true -> i = j)
    /\ (forall a c', step (ts, w) (1%nat, a) c' -> False).
Proof.
  destruct two_calls_reach as (ts & w & Hreach). exists ts, w.
  destruct (C9_one_exchange_at_a_time two_calls
              (board None [2; 1; 100; 1; 0; 0; 0; 0; 104]) w
              two_calls_history ts eq_refl Hreach)
    as (_ & Huniq & Hstep & _).
  split; [exact Hreach|]. split; [reflexivity|]. split; [exact Huniq|].
  intros a c' Hs. specialize (Hstep 1%nat a c' Hs).
  destruct (decide (a = MutexLock)).
  - specialize (Hstep 0%nat). vm_compute in Hstep. discriminate.
  - vm_compute in Hstep. discriminate.
Defined.

(** * More of the code *)

(** ** The checksum *)

Lemma sum_bytes_app (a b : list byte) :
  sum_bytes (a ++ b) = sum_bytes a + sum_bytes b.
Proof. induction a as [|x a IH]; simpl; [reflexivity|]. rewrite IH. lia. Qed.

Lemma sum_bytes_perm (a b : list byte) :
  a ≡ₚ b -> sum_bytes a = sum_bytes b.
Proof. induction 1; simpl; lia. Qed.

Lemma checksum_valid_snoc (body : list byte) (ck : byte) :
  length body = 8%nat ->
  checksum_valid (body ++ [ck]) <-> ck = sum_bytes body mod 256.
Proof.
  intros Hlen. unfold checksum_valid.
  rewrite (take_app_length' body [ck] 8) by (symmetry; exact Hlen).
  rewrite (list_lookup_total_middle body [] ck 8) by (symmetry; exact Hlen).
  reflexivity.
Qed.

(** X1. The checksum of a concatenation is the wrapped sum of the
    checksums of the parts, and a checksum is always a byte, whatever the
    numbers summed. *)
Theorem calcChecksum_app (a b : list byte) :
  calcChecksum (a ++ b) = to_byte (calcChecksum a + calcChecksum b)
  /\ is_byte (calcChecksum (a ++ b)).
Proof.
  split; [|apply calcChecksum_is_byte].
  rewrite !calcChecksum_sum, sum_bytes_app. unfold to_byte.
  apply Zplus_mod.
Qed.

(** X2. The checksum does not see the order of the bytes: reordering the
    bytes it covers leaves it unchanged, so a frame whose first 8 bytes
    are permuted still carries a valid checksum. *)
Theorem calcChecksum_perm (body body' : list byte) (ck : byte) :
  body ≡ₚ body' ->
  calcChecksum body = calcChecksum body'
  /\ (length body = 8%nat -> checksum_valid (body ++ [ck]) ->
      checksum_valid (body' ++ [ck])).
Proof.
  intros Hp. pose proof (sum_bytes_perm body body' Hp) as Hs.
  split; [rewrite !calcChecksum_sum, Hs; reflexivity|].
  intros Hlen Hv.
  assert (Hlen' : length body' = 8%nat)
    by (rewrite <- Hlen; symmetry; apply Permutation_length, Hp).
  apply (checksum_valid_snoc body' ck Hlen').
  apply (checksum_valid_snoc body ck Hlen) in Hv. congruence.
Qed.

Lemma calcChecksum_perm_witness :
  calcChecksum [2; 1; 100; 6; 0; 0; 1; 7] = calcChecksum [2; 6; 100; 1; 7; 0; 1; 0]
  /\ checksum_valid ([2; 6; 100; 1; 7; 0; 1; 0] ++ [117]).
Proof.
  assert (Hp : [2; 1; 100; 6; 0; 0; 1; 7] ≡ₚ [2; 6; 100; 1; 7; 0; 1; 0])
    by (apply (bool_decide_unpack _); vm_compute; reflexivity).
  destruct (calcChecksum_perm _ _ 117 Hp) as [Heq Hv].
  split; [exact Heq|]. apply Hv; reflexivity.
Defined.

(** ** The value field *)

(** X3. Encoding then decoding the value field gives the value back:
    [int32(BigEndian.Uint32(b))] after [BigEndian.PutUint32(b,
    uint32(value))] is [value], for every [int32]. *)
Theorem value_encode_decode (value : int32) :
  is_int32 value ->
  to_int32 (Uint32 (PutUint32 (to_uint32 value))) = value.
Proof.
  intros Hv. rewrite (Uint32_PutUint32 _ (to_uint32_range value)).
  apply to_int32_to_uint32, Hv.
Qed.

Lemma value_encode_decode_witness :
  to_int32 (Uint32 (PutUint32 (to_uint32 (- 2 ^ 31)))) = - 2 ^ 31.
Proof. apply value_encode_decode. unfold is_int32. lia. Defined.

Lemma to_uint32_to_int32 (u : Z) :
  0 <= u < 2 ^ 32 -> to_uint32 (to_int32 u) = u.
Proof.
  unfold to_uint32, to_int32. intros Hu.
  rewrite (Z.mod_small u (2 ^ 32)) by exact Hu.
  change (2 ^ 31) with 2147483648 in *. change (2 ^ 32) with 4294967296 in *.
  destruct (Z.ltb_spec u 2147483648); Z.div_mod_to_equations; lia.
Qed.

(** X4. Decoding then encoding gives the bytes back: the four value
    bytes of a frame, read as an [int32] and written again as [Exec]
    writes a value, are the same four bytes. So the value field is in
    one-to-one correspondence with the [int32] values. *)
Theorem value_decode_encode (b0 b1 b2 b3 : byte) :
  is_byte b0 -> is_byte b1 -> is_byte b2 -> is_byte b3 ->
  is_int32 (to_int32 (Uint32 [b0; b1; b2; b3]))
  /\ PutUint32 (to_uint32 (to_int32 (Uint32 [b0; b1; b2; b3])))
     = [b0; b1; b2; b3].
Proof.
  intros H0 H1 H2 H3. split; [apply to_int32_is_int32|].
  rewrite (Uint32_bytes b0 b1 b2 b3 H0 H1 H2 H3).
  unfold is_byte in *.
  rewrite to_uint32_to_int32
    by (change (2 ^ 32) with 4294967296; change (2 ^ 24) with 16777216;
        change (2 ^ 16) with 65536; change (2 ^ 8) with 256; lia).
  rewrite PutUint32_bytes.
  change (2 ^ 24) with 16777216. change (2 ^ 16) with 65536.
  change (2 ^ 8) with 256.
  repeat f_equal; Z.div_mod_to_equations; lia.
Qed.

Lemma value_decode_encode_witness :
  is_int32 (to_int32 (Uint32 [255; 0; 128; 7]))
  /\ PutUint32 (to_uint32 (to_int32 (Uint32 [255; 0; 128; 7])))
     = [255; 0; 128; 7].
Proof. apply value_decode_encode; unfold is_byte; lia. Defined.

(** ** Status codes *)

(** X5. [getError] gives no error exactly for 100 and 101, and apart
    from these two it never gives two status codes the same error: the
    error tells which code the board sent. *)
Theorem getError_injective (c1 c2 : byte) :
  getError c1 = getError c2 ->
  (getError c1 = None <-> c1 = 100 \/ c1 = 101)
  /\ (c1 = c2 \/ ((c1 = 100 \/ c1 = 101) /\ (c2 = 100 \/ c2 = 101))).
Proof.
  unfold getError. intros Heq.
  split.
  - repeat case_decide; split; intros; try discriminate; try tauto; lia.
  - repeat case_decide; try discriminate; try (left; congruence);
      try (right; split; assumption); lia.
Qed.

Lemma getError_injective_witness :
  (getError 100 = None <-> 100 = 100 \/ 100 = 101)
  /\ (100 = 101 \/ ((100 = 100 \/ 100 = 101) /\ (101 = 100 \/ 101 = 101))).
Proof. apply getError_injective. reflexivity. Defined.

(** ** More on [Exec] *)

Lemma request_length (cmd typeNo motorOrBank : byte) (value : int32) :
  length (request cmd typeNo motorOrBank value) = 9%nat.
Proof. reflexivity. Qed.

Lemma request_checksum_valid (cmd typeNo motorOrBank : byte) (value : int32) :
  checksum_valid (request cmd typeNo motorOrBank value).
Proof.
  unfold request.
  apply (checksum_valid_snoc
           ([2; cmd; typeNo; motorOrBank] ++ PutUint32 (to_uint32 value)) _
           eq_refl).
  apply calcChecksum_sum.
Qed.

Lemma reply_outcome_int32 (resp : list byte) : is_int32 (fst (reply_outcome resp)).
Proof.
  unfold reply_outcome, status_outcome.
  repeat case_decide; simpl; try apply to_int32_is_int32;
    unfold is_int32; lia.
Qed.

Section MoreExec.
Context {P : Type} `{ReadWriter P}.

(** X6. Whatever the port delivers, the number [Exec] returns is in the
    [int32] range. *)
Theorem Exec_result_int32 (w w' : world P)
        (cmd typeNo motorOrBank : byte) (value : int32)
        (r : int32) (e : option error) :
  result (Exec cmd typeNo motorOrBank value) w = Some ((r, e), w') ->
  is_int32 r.
Proof.
  unfold result.
  destruct (cmdMutex (obj w)) eqn:Hm.
  { rewrite (run_Exec_locked _ _ _ _ w Hm). discriminate. }
  assert (H0 : is_int32 0) by (unfold is_int32; lia).
  destruct (port (obj w)) as [s|] eqn:Hp.
  - destruct (run_Exec_cases cmd typeNo motorOrBank value w s Hm Hp)
      as [(e' & s' & ->)|[(e' & s' & ->)|(d & s' & ->)]]; simpl;
      intros Heq; try (injection Heq as <- _ _; exact H0).
    pose proof (reply_outcome_int32 (store 0 d zeros9)) as Hr.
    destruct (reply_outcome (store 0 d zeros9)) as [r' e'].
    injection Heq as <- _ _. exact Hr.
  - rewrite (run_Exec_no_port _ _ _ _ w Hm Hp). simpl.
    intros Heq. injection Heq as <- _ _. exact H0.
Qed.

(** X7. On a port that sends back what it was sent, [Exec] reads its own
    frame as a reply: the frame passes the checksum test, its type byte
    is taken for the status, and for a type byte of 100 or more the value
    comes back unchanged. *)
Theorem Exec_loopback (w w' : world P)
        (cmd typeNo motorOrBank : byte) (value : int32) :
  is_int32 value ->
  answers w (request cmd typeNo motorOrBank value)
          (request cmd typeNo motorOrBank value) w' ->
  result (Exec cmd typeNo motorOrBank value) w
  = Some (if decide (typeNo < 100) then (0, getError typeNo)
          else (value, None), w').
Proof.
  intros Hv Ha.
  rewrite (result_Exec_reply w w' _ _ _ _ _ Ha (request_length _ _ _ _)).
  rewrite (reply_outcome_valid _ (request_checksum_valid _ _ _ _)).
  unfold status_outcome.
  change (request cmd typeNo motorOrBank value !!! 2%nat) with typeNo.
  change (slice 4 8 (request cmd typeNo motorOrBank value))
    with (PutUint32 (to_uint32 value)).
  rewrite (Uint32_PutUint32 _ (to_uint32_range value)).
  rewrite (to_int32_to_uint32 value Hv). reflexivity.
Qed.

Lemma run_Exec_free (w : world P)
      (cmd typeNo motorOrBank : byte) (value : int32) :
  cmdMutex (obj w) = false ->
  exists t r w',
    run (Exec cmd typeNo motorOrBank value) w = (t, Some (r, w'))
    /\ cmdMutex (obj w') = false
    /\ log (obj w') = log (obj w)
    /\ stdout w' = stdout w
    /\ (port (obj w') = None <-> port (obj w) = None).
Proof.
  intros Hm. destruct (port (obj w)) as [s|] eqn:Hp.
  - destruct (run_Exec_cases cmd typeNo motorOrBank value w s Hm Hp)
      as [(e' & s' & ->)|[(e' & s' & ->)|(d & s' & ->)]];
      eexists _, _, _; (split; [reflexivity|]); simpl;
      repeat split; try assumption; try reflexivity;
      intros ?; discriminate.
  - rewrite (run_Exec_no_port _ _ _ _ w Hm Hp).
    eexists _, _, _. split; [reflexivity|].
    repeat split; try assumption; try reflexivity; intros ?; assumption.
Qed.

(** X8. Calls made one after the other never get stuck on the mutex and
    leave the object as they found it: every call of the sequence
    returns, and afterwards the mutex is free, the logger and what it
    printed are the same, and a port is attached exactly if one was
    before. *)
Theorem Exec_each_returns (calls : list (byte * byte * byte * int32))
        (w : world P) :
  cmdMutex (obj w) = false ->
  exists rs w',
    result (Exec_each calls) w = Some (rs, w')
    /\ length rs = length calls
    /\ cmdMutex (obj w') = false
    /\ log (obj w') = log (obj w)
    /\ stdout w' = stdout w
    /\ (port (obj w') = None <-> port (obj w) = None).
Proof.
  unfold result. revert w.
  induction calls as [|[[[c t] b] v] calls IH]; intros w Hm.
  - exists [], w. simpl.
    split; [reflexivity|]. split; [reflexivity|]. split; [exact Hm|].
    split; [reflexivity|]. split; reflexivity.
  - destruct (run_Exec_free w c t b v Hm)
      as (tr & r & w1 & Hrun & Hm1 & Hl1 & Ho1 & Hp1).
    destruct (IH w1 Hm1) as (rs & w2 & Hrun2 & Hlen & Hm2 & Hl2 & Ho2 & Hp2).
    exists (r :: rs), w2.
    cbn [Exec_each]. unfold mbind, prog_bind.
    rewrite run_bind, Hrun. rewrite run_bind.
    destruct (run (Exec_each calls) w1) as [t2 res2]. simpl in Hrun2.
    subst res2. simpl.
    split; [reflexivity|]. split; [simpl; congruence|].
    split; [exact Hm2|]. split; [congruence|]. split; [congruence|].
    rewrite Hp2. exact Hp1.
Qed.

(** X9. With a port attached, [Exec] writes once, the 9 bytes of its
    frame; it reads, once and into a buffer of 9 bytes, only if that write
    returned no error. *)
Theorem Exec_io_discipline (w : world P) (s s' : P)
        (cmd typeNo motorOrBank : byte) (value : int32)
        (n : Z) (err : option error) :
  cmdMutex (obj w) = false -> port (obj w) = Some s ->
  port_Write (request cmd typeNo motorOrBank value) s = ((n, err), s') ->
  List.filter is_io (trace (Exec cmd typeNo motorOrBank value) w)
  = PortWrite (request cmd typeNo motorOrBank value)
      :: match err with
         | Some _ => []
         | None => [PortReadFull (replicate 9 0)]
         end
  /\ length (request cmd typeNo motorOrBank value) = 9%nat.
Proof.
  intros Hm Hp Hw. split; [|reflexivity]. unfold trace.
  destruct err as [e|].
  - rewrite (run_Exec_write_err _ _ _ _ w s s' n e Hm Hp Hw). reflexivity.
  - destruct (port_ReadFull 9 s') as [[data [e|]] s''] eqn:Hr.
    + rewrite (run_Exec_read_err _ _ _ _ w s s' s'' n data e Hm Hp Hw Hr).
      reflexivity.
    + rewrite (run_Exec_read _ _ _ _ w s s' s'' n data Hm Hp Hw Hr).
      reflexivity.
Qed.


End MoreExec.

Lemma Exec_result_int32_witness :
  fst <$> result (Exec 6 1 0 0)
                 (board None [2; 1; 100; 6; 255; 255; 255; 255; 105])
  = Some (- 1, None)
  /\ is_int32 (- 1).
Proof.
  split; [reflexivity|].
  refine (Exec_result_int32
            (board None [2; 1; 100; 6; 255; 255; 255; 255; 105]) _
            6 1 0 0 (- 1) None _).
  reflexivity.
Defined.

Lemma Exec_loopback_witness :
  exists w',
    result (Exec 6 120 0 (- 5)) (board None (request 6 120 0 (- 5)))
    = Some ((- 5, None), w').
Proof.
  eexists.
  refine (Exec_loopback (board None (request 6 120 0 (- 5))) _
            6 120 0 (- 5) _ _).
  - unfold is_int32; lia.
  - script_answers.
Defined.

Lemma Exec_each_returns_witness :
  exists rs w',
    result (Exec_each [(1, 0, 1, 500); (6, 1, 0, 0)])
           (board None [2; 1; 100; 1; 0; 0; 0; 0; 104])
    = Some (rs, w')
    /\ length rs = 2%nat
    /\ cmdMutex (obj w') = false.
Proof.
  destruct (Exec_each_returns [(1, 0, 1, 500); (6, 1, 0, 0)]
              (board None [2; 1; 100; 1; 0; 0; 0; 0; 104]) eq_refl)
    as (rs & w' & Hr & Hlen & Hm & _).
  exists rs, w'. repeat split; assumption.
Defined.

Lemma Exec_io_discipline_witness :
  List.filter is_io
    (trace (Exec 1 0 1 500)
       (mkWorld (NewTMCL (Some (mkScript [] (Some (errorTransport "closed")) []))
                         None) []))
  = [PortWrite (request 1 0 1 500)].
Proof.
  refine (proj1 (Exec_io_discipline _ (mkScript [] (Some (errorTransport "closed")) [])
                   _ 1 0 1 500 _ (Some (errorTransport "closed")) _ _ _));
    reflexivity.
Defined.


(** ** Opening and closing the serial port *)

Lemma serial_do_inv {P : Type} (s : Serial P) (c : serial_call P) :
  port (tmcl s) = serialPort s ->
  port (tmcl (serial_do s c)) = serialPort (serial_do s c)
  /\ cmdMutex (tmcl (serial_do s c)) = cmdMutex (tmcl s)
  /\ log (tmcl (serial_do s c)) = log (tmcl s).
Proof.
  intros Hs. destruct c as [[p|e]|]; unfold serial_do, OpenPort, ClosePort;
    destruct (serialPort s) eqn:Hsp; simpl; rewrite ?Hsp; auto.
Qed.

Lemma serial_calls_inv {P : Type} (cs : list (serial_call P)) (s : Serial P) :
  port (tmcl s) = serialPort s ->
  port (tmcl (serial_calls cs s)) = serialPort (serial_calls cs s)
  /\ cmdMutex (tmcl (serial_calls cs s)) = cmdMutex (tmcl s)
  /\ log (tmcl (serial_calls cs s)) = log (tmcl s).
Proof.
  unfold serial_calls. revert s.
  induction cs as [|c cs IH]; intros s Hs; simpl; [auto|].
  destruct (serial_do_inv s c Hs) as (H1 & H2 & H3).
  destruct (IH (serial_do s c) H1) as (H4 & H5 & H6).
  split; [exact H4|]. split; congruence.
Qed.

(** X11. Whatever [OpenPort] and [ClosePort] calls are made on a
    [NewSerial], and whether the opening succeeds or not, the port [Exec]
    uses and the port [ClosePort] closes stay the same one (both absent
    or both the opened port), and the mutex and the logger are not
    touched. *)
Theorem Serial_ports_in_sync {P : Type} (cs : list (serial_call P)) :
  port (tmcl (serial_calls cs NewSerial))
  = serialPort (serial_calls cs NewSerial)
  /\ cmdMutex (tmcl (serial_calls cs NewSerial)) = false
  /\ log (tmcl (serial_calls cs NewSerial)) = NoopLogger.
Proof. apply (serial_calls_inv cs NewSerial). reflexivity. Qed.

(** X12. After [ClosePort], whatever was opened and closed before, every
    [Exec] fails with "port not open" and touches no port. *)
Theorem ClosePort_then_Exec {P : Type} `{ReadWriter P}
        (cs : list (serial_call P)) (out : list string)
        (cmd typeNo motorOrBank : byte) (value : int32) :
  let w := mkWorld (tmcl (ClosePort (serial_calls cs NewSerial))) out in
  run (Exec cmd typeNo motorOrBank value) w
  = ([MutexLock; PortIsNil; MutexUnlock], Some ((0, Some errorPortNotOpen), w)).
Proof.
  intros w. subst w.
  destruct (serial_calls_inv (cs ++ [CallClosePort]) (@NewSerial P) eq_refl)
    as (Hsync & Hm & _).
  unfold serial_calls in *. rewrite foldl_app in *. simpl in Hsync, Hm.
  apply run_Exec_no_port; simpl; [exact Hm|].
  unfold ClosePort in *.
  destruct (serialPort (foldl serial_do NewSerial cs)) eqn:Hsp;
    simpl in *; [reflexivity|]. rewrite Hsync. exact Hsp.
Qed.

(** X13. On a closed [Serial]: a failed opening returns its error and
    changes nothing; a successful one attaches the port, after which a
    second [OpenPort] returns nil and changes nothing, even if that
    opening would fail, and [ClosePort] gives the closed [Serial] back;
    closing twice is closing once. *)
Theorem OpenPort_ClosePort {P : Type} (s : Serial P) (p : P) (e : error)
        (again : P + error) :
  serialPort s = None -> port (tmcl s) = None ->
  OpenPort (inr e) s = (Some e, s)
  /\ fst (OpenPort (inl p) s) = None
  /\ port (tmcl (snd (OpenPort (inl p) s))) = Some p
  /\ OpenPort again (snd (OpenPort (inl p) s)) = (None, snd (OpenPort (inl p) s))
  /\ ClosePort (snd (OpenPort (inl p) s)) = s
  /\ ClosePort (ClosePort (snd (OpenPort (inl p) s)))
     = ClosePort (snd (OpenPort (inl p) s)).
Proof.
  destruct s as [[pt lg mx] sp]. simpl. intros -> ->.
  unfold OpenPort, ClosePort. simpl. repeat split; reflexivity.
Qed.

Lemma OpenPort_ClosePort_witness :
  ClosePort (snd (OpenPort (inl (mkScript [] None [])) (@NewSerial Script)))
  = NewSerial.
Proof.
  refine (proj1 (proj2 (proj2 (proj2 (proj2
    (OpenPort_ClosePort (@NewSerial Script) (mkScript [] None [])
       (errorTransport "no such port") (inr (errorTransport "busy"))
       _ _))))));
    reflexivity.
Defined.

(** ** The named operations *)

Section RunBindMore.
Context {P : Type} `{ReadWriter P}.

Lemma result_bind {A B : Type} (m : prog A) (f : A -> prog B) (w : world P) :
  result (bind m f) w
  = match result m w with
    | None => None
    | Some (a, w') => result (f a) w'
    end.
Proof.
  unfold result. rewrite run_bind.
  destruct (run m w) as [t [[a w']|]]; simpl; [|reflexivity].
  destruct (run (f a) w'). reflexivity.
Qed.

Lemma trace_bind {A B : Type} (m : prog A) (f : A -> prog B) (w : world P) :
  trace (bind m f) w
  = trace m w ++ match result m w with
                 | None => []
                 | Some (a, w') => trace (f a) w'
                 end.
Proof.
  unfold trace, result. rewrite run_bind.
  destruct (run m w) as [t [[a w']|]]; simpl; [|symmetry; apply app_nil_r].
  destruct (run (f a) w'). reflexivity.
Qed.

End RunBindMore.

Lemma to_int32_small (x : Z) : 0 <= x < 2 ^ 31 -> to_int32 x = x.
Proof.
  unfold to_int32. intros Hx.
  change (2 ^ 31) with 2147483648 in *.
  rewrite (Z.mod_small x (2 ^ 32)) by (change (2 ^ 32) with 4294967296; lia).
  destruct (Z.ltb_spec x 2147483648); lia.
Qed.

Lemma land_255 (x : Z) : Z.land x 0xFF = x mod 256.
Proof. change 0xFF with (Z.ones 8). apply Z.land_ones. lia. Qed.

(** The status [GetApplicationStatus] computes from a value. *)
Lemma app_status_range (val : int32) :
  0 <= to_int32 (Z.land (Z.shiftr (to_uint32 val) 24) 0xFF) <= 255.
Proof.
  rewrite land_255.
  pose proof (Z.mod_pos_bound (Z.shiftr (to_uint32 val) 24) 256) as Hb.
  rewrite to_int32_small by (change (2 ^ 31) with 2147483648; lia). lia.
Qed.

Lemma app_status_top_byte (b4 b5 b6 b7 : byte) :
  is_byte b4 -> is_byte b5 -> is_byte b6 -> is_byte b7 ->
  to_int32 (Z.land (Z.shiftr (to_uint32 (to_int32 (Uint32 [b4; b5; b6; b7])))
                             24) 0xFF)
  = b4.
Proof.
  intros H4 H5 H6 H7. rewrite (Uint32_bytes b4 b5 b6 b7 H4 H5 H6 H7).
  unfold is_byte in *.
  change (2 ^ 24) with 16777216. change (2 ^ 16) with 65536.
  change (2 ^ 8) with 256.
  rewrite to_uint32_to_int32 by (change (2 ^ 32) with 4294967296; lia).
  rewrite land_255, Z.shiftr_div_pow2 by lia.
  change (2 ^ 24) with 16777216.
  replace ((b4 * 16777216 + b5 * 65536 + b6 * 256 + b7) / 16777216) with b4
    by (Z.div_mod_to_equations; lia).
  rewrite Z.mod_small by lia.
  apply to_int32_small. change (2 ^ 31) with 2147483648. lia.
Qed.

Section Operations.
Context {P : Type} `{ReadWriter P}.

(** X14. On a checksum-valid reply with a status of 100 or more,
    [GetApplicationStatus] returns the first of the four value bytes of
    the reply (the most significant one) and nothing of the other
    three. *)
Theorem GetApplicationStatus_top_byte (w w' : world P) (resp : list byte) :
  answers w (request 135 0 0 0) resp w' ->
  is_frame resp -> checksum_valid resp -> 100 <= resp !!! 2%nat ->
  result GetApplicationStatus w = Some ((resp !!! 4%nat, None), w').
Proof.
  intros Ha Hf Hc Hs.
  unfold GetApplicationStatus, mbind, prog_bind. rewrite result_bind.
  rewrite (result_Exec_reply w w' _ _ _ _ resp Ha (proj1 Hf)).
  rewrite (reply_outcome_valid resp Hc).
  destruct (frame_inv resp Hf)
    as (b0 & b1 & b2 & b3 & b4 & b5 & b6 & b7 & b8 & -> & Hb).
  unfold status_outcome. simpl in Hs.
  rewrite decide_False by (simpl; lia).
  change (slice 4 8 [b0; b1; b2; b3; b4; b5; b6; b7; b8])
    with [b4; b5; b6; b7].
  cbn [result run snd].
  rewrite app_status_top_byte by tauto. reflexivity.
Qed.

(** X15. Whatever the port delivers, the status [GetApplicationStatus]
    returns is between 0 and 255, and it is 0 whenever an error comes
    with it. *)
Theorem GetApplicationStatus_range (w w' : world P)
        (r : int32) (e : option error) :
  result GetApplicationStatus w = Some ((r, e), w') ->
  0 <= r <= 255 /\ (e <> None -> r = 0).
Proof.
  unfold GetApplicationStatus, mbind, prog_bind. rewrite result_bind.
  destruct (result (Exec 135 0 0 0) w) as [[[val [err|]] w1]|];
    [| |discriminate]; cbn [result run snd]; intros Heq;
    injection Heq as <- <- _.
  - split; [lia|reflexivity].
  - split; [apply app_status_range|congruence].
Qed.

End Operations.

Lemma GetApplicationStatus_top_byte_witness :
  exists w',
    result GetApplicationStatus (board None [2; 1; 100; 135; 3; 9; 9; 9; 12])
    = Some ((3, None), w').
Proof.
  eexists.
  refine (GetApplicationStatus_top_byte
            (board None [2; 1; 100; 135; 3; 9; 9; 9; 12]) _
            [2; 1; 100; 135; 3; 9; 9; 9; 12] _ _ _ _).
  - script_answers.
  - split; [reflexivity|bytes].
  - reflexivity.
  - simpl; lia.
Defined.

Lemma GetApplicationStatus_range_witness :
  0 <= 255 <= 255 /\ ((None : option error) <> None -> 255 = 0).
Proof.
  refine (GetApplicationStatus_range
            (board None [2; 1; 100; 135; 255; 255; 255; 255; 234])
            (mkWorld (NewTMCL (Some (mkScript [request 135 0 0 0] None []))
                              None) [])
            255 None _).
  reflexivity.
Defined.

(** *** The firmware version string *)

Lemma hexfix_0 (k : nat) : hexfix k 0 = replicate k "0"%char.
Proof.
  induction k as [|k IH]; [reflexivity|].
  cbn [hexfix]. change (0 / 16) with 0. rewrite IH.
  change [hexdigitX (0 mod 16)] with (replicate 1 "0"%char).
  rewrite <- replicate_add. f_equal. lia.
Qed.

Lemma hexX_pad (fuel k : nat) (u : Z) :
  (1 <= k <= fuel)%nat -> 0 <= u < 16 ^ Z.of_nat k ->
  (length (hexX fuel u) <= k)%nat
  /\ replicate (k - length (hexX fuel u)) "0"%char ++ hexX fuel u
     = hexfix k u.
Proof.
  revert k u. induction fuel as [|fuel IH]; intros k u Hk Hu; [lia|].
  destruct k as [|k]; [lia|]. cbn [hexX hexfix].
  rewrite Nat2Z.inj_succ, Z.pow_succ_r in Hu by lia.
  destruct (Z.ltb_spec u 16) as [Hlt|Hge].
  - simpl. split; [lia|]. rewrite Nat.sub_0_r.
    replace (u / 16) with 0 by (Z.div_mod_to_equations; lia).
    rewrite hexfix_0. reflexivity.
  - assert (Hk1 : (1 <= k)%nat).
    { destruct k; [|lia]. simpl in Hu. lia. }
    destruct (IH k (u / 16)) as [Hlen Hpad].
    + lia.
    + split; [Z.div_mod_to_equations; lia|].
      apply Z.div_lt_upper_bound; lia.
    + rewrite length_app. simpl. split; [lia|].
      rewrite app_assoc.
      replace (S k - (length (hexX fuel (u / 16)) + 1))%nat
        with (k - length (hexX fuel (u / 16)))%nat by lia.
      rewrite Hpad. reflexivity.
Qed.

Lemma Sprintf_08X_nonneg (val : int32) :
  0 <= val < 2 ^ 31 ->
  Sprintf_08X val = String.string_of_list_ascii (hexfix 8 val).
Proof.
  intros Hv. unfold Sprintf_08X.
  destruct (Z.ltb_spec val 0) as [Hneg|_]; [lia|].
  f_equal. apply (hexX_pad 16 8 val); [lia|].
  change (16 ^ Z.of_nat 8) with 4294967296.
  change (2 ^ 31) with 2147483648 in Hv. lia.
Qed.

Lemma hexfix_bytes (b4 b5 b6 b7 : byte) :
  is_byte b4 -> is_byte b5 -> is_byte b6 -> is_byte b7 ->
  hexfix 8 (b4 * 2 ^ 24 + b5 * 2 ^ 16 + b6 * 2 ^ 8 + b7)
  = hexX2 b4 ++ hexX2 b5 ++ hexX2 b6 ++ hexX2 b7.
Proof.
  unfold is_byte. intros H4 H5 H6 H7.
  change (2 ^ 24) with 16777216. change (2 ^ 16) with 65536.
  change (2 ^ 8) with 256.
  set (v := b4 * 16777216 + b5 * 65536 + b6 * 256 + b7).
  unfold hexX2. cbn [hexfix app].
  rewrite !Z.div_div by lia.
  change (16 * 16) with 256. change (16 * 256) with 4096.
  change (16 * 4096) with 65536. change (16 * 65536) with 1048576.
  change (16 * 1048576) with 16777216. change (16 * 16777216) with 268435456.
  assert (E7 : (v / 268435456) mod 16 = b4 / 16)
    by (subst v; Z.div_mod_to_equations; lia).
  assert (E6 : (v / 16777216) mod 16 = b4 mod 16)
    by (subst v; Z.div_mod_to_equations; lia).
  assert (E5 : (v / 1048576) mod 16 = b5 / 16)
    by (subst v; Z.div_mod_to_equations; lia).
  assert (E4 : (v / 65536) mod 16 = b5 mod 16)
    by (subst v; Z.div_mod_to_equations; lia).
  assert (E3 : (v / 4096) mod 16 = b6 / 16)
    by (subst v; Z.div_mod_to_equations; lia).
  assert (E2 : (v / 256) mod 16 = b6 mod 16)
    by (subst v; Z.div_mod_to_equations; lia).
  assert (E1 : (v / 16) mod 16 = b7 / 16)
    by (subst v; Z.div_mod_to_equations; lia).
  assert (E0 : v mod 16 = b7 mod 16)
    by (subst v; Z.div_mod_to_equations; lia).
  rewrite E7, E6, E5, E4, E3, E2, E1, E0. reflexivity.
Qed.

Section Version.
Context {P : Type} `{ReadWriter P}.

Lemma result_GetFirmwareVersion (w w' : world P) (resp : list byte) :
  answers w (request 136 1 0 0) resp w' ->
  is_frame resp -> checksum_valid resp -> 100 <= resp !!! 2%nat ->
  result GetFirmwareVersion w
  = Some ((Sprintf_08X (to_int32 (Uint32 (slice 4 8 resp))), None), w').
Proof.
  intros Ha Hf Hc Hs.
  unfold GetFirmwareVersion, mbind, prog_bind. change (to_byte 1) with 1.
  rewrite result_bind.
  rewrite (result_Exec_reply w w' _ _ _ _ resp Ha (proj1 Hf)).
  rewrite (reply_outcome_valid resp Hc).
  unfold status_outcome. rewrite decide_False by lia. reflexivity.
Qed.

(** X16. On a checksum-valid reply with a status of 100 or more whose
    first value byte is below 128, [GetFirmwareVersion] returns the four
    value bytes of the reply written in hexadecimal, two upper-case digits
    per byte, in the order they were received. *)
Theorem GetFirmwareVersion_hexdump (w w' : world P) (resp : list byte) :
  answers w (request 136 1 0 0) resp w' ->
  is_frame resp -> checksum_valid resp -> 100 <= resp !!! 2%nat ->
  resp !!! 4%nat < 128 ->
  result GetFirmwareVersion w
  = Some ((String.string_of_list_ascii
             (hexX2 (resp !!! 4%nat) ++ hexX2 (resp !!! 5%nat)
              ++ hexX2 (resp !!! 6%nat) ++ hexX2 (resp !!! 7%nat)),
           None), w').
Proof.
  intros Ha Hf Hc Hs Htop.
  rewrite (result_GetFirmwareVersion w w' resp Ha Hf Hc Hs).
  destruct (frame_inv resp Hf)
    as (b0 & b1 & b2 & b3 & b4 & b5 & b6 & b7 & b8 & -> & Hb).
  change (slice 4 8 [b0; b1; b2; b3; b4; b5; b6; b7; b8])
    with [b4; b5; b6; b7].
  simpl in Htop |- *.
  destruct Hb as (_ & _ & _ & _ & H4 & H5 & H6 & H7 & _).
  rewrite (Uint32_bytes b4 b5 b6 b7 H4 H5 H6 H7).
  assert (Hrange : 0 <= b4 * 2 ^ 24 + b5 * 2 ^ 16 + b6 * 2 ^ 8 + b7 < 2 ^ 31).
  { unfold is_byte in *.
    change (2 ^ 24) with 16777216. change (2 ^ 16) with 65536.
    change (2 ^ 8) with 256. change (2 ^ 31) with 2147483648. lia. }
  rewrite (to_int32_small _ Hrange), (Sprintf_08X_nonneg _ Hrange).
  rewrite (hexfix_bytes b4 b5 b6 b7 H4 H5 H6 H7). reflexivity.
Qed.

(** X17. When the first value byte of such a reply is 128 or more, the
    value is a negative [int32] and the string [GetFirmwareVersion]
    returns starts with a minus sign: it is not the hexadecimal of the
    four bytes. *)
Theorem GetFirmwareVersion_negative (w w' : world P) (resp : list byte) :
  answers w (request 136 1 0 0) resp w' ->
  is_frame resp -> checksum_valid resp -> 100 <= resp !!! 2%nat ->
  128 <= resp !!! 4%nat ->
  exists rest : string,
    result GetFirmwareVersion w = Some ((String "-"%char rest, None), w').
Proof.
  intros Ha Hf Hc Hs Htop.
  rewrite (result_GetFirmwareVersion w w' resp Ha Hf Hc Hs).
  destruct (frame_inv resp Hf)
    as (b0 & b1 & b2 & b3 & b4 & b5 & b6 & b7 & b8 & -> & Hb).
  change (slice 4 8 [b0; b1; b2; b3; b4; b5; b6; b7; b8])
    with [b4; b5; b6; b7].
  simpl in Htop.
  destruct Hb as (_ & _ & _ & _ & H4 & H5 & H6 & H7 & _).
  rewrite (Uint32_bytes b4 b5 b6 b7 H4 H5 H6 H7).
  assert (Hneg : to_int32 (b4 * 2 ^ 24 + b5 * 2 ^ 16 + b6 * 2 ^ 8 + b7) < 0).
  { unfold is_byte, to_int32 in *.
    change (2 ^ 24) with 16777216. change (2 ^ 16) with 65536.
    change (2 ^ 8) with 256. change (2 ^ 31) with 2147483648.
    change (2 ^ 32) with 4294967296.
    rewrite Z.mod_small by lia.
    destruct (Z.ltb_spec (b4 * 16777216 + b5 * 65536 + b6 * 256 + b7)
                         2147483648); lia. }
  unfold Sprintf_08X. apply Z.ltb_lt in Hneg. rewrite Hneg.
  cbn [String.string_of_list_ascii]. eexists. reflexivity.
Qed.

(** X18. [SIO] sends one frame with command 14, the port number as type
    and the bank, whose value field is 00 00 00 01 for [true] and
    00 00 00 00 for [false]. *)
Theorem SIO_frame (w : world P) (s : P) (portNo bank : byte) (value : bool) :
  cmdMutex (obj w) = false -> port (obj w) = Some s ->
  let b := if value then 1 else 0 in
  List.filter is_write (trace (SIO portNo bank value) w)
  = [PortWrite [2; 14; portNo; bank; 0; 0; 0; b;
                (2 + 14 + portNo + bank + b) mod 256]].
Proof.
  intros Hm Hp b. unfold SIO, mbind, prog_bind.
  rewrite trace_bind, List.filter_app.
  change (if value then 1 else 0) with b.
  rewrite (Exec_writes_request w s 14 portNo bank b Hm Hp).
  destruct (result (Exec 14 portNo bank b) w) as [[[v err] w1]|];
    cbn [trace run fst List.filter app].
  all: rewrite (request_bytes 14 portNo bank b).
  all: subst b; destruct value; cbn zeta.
  all: change (to_uint32 1 / 2 ^ 24 mod 256) with 0;
    change (to_uint32 1 / 2 ^ 16 mod 256) with 0;
    change (to_uint32 1 / 2 ^ 8 mod 256) with 0;
    change (to_uint32 1 mod 256) with 1;
    change (to_uint32 0 / 2 ^ 24 mod 256) with 0;
    change (to_uint32 0 / 2 ^ 16 mod 256) with 0;
    change (to_uint32 0 / 2 ^ 8 mod 256) with 0;
    change (to_uint32 0 mod 256) with 0.
  all: match goal with
       | |- [PortWrite [_; _; _; _; _; _; _; _; ?x mod 256]]
            = [PortWrite [_; _; _; _; _; _; _; _; ?y mod 256]] =>
         replace x with y by lia; reflexivity
       end.
Qed.

End Version.

Ltac op_entry :=
  unfold ROR, ROL, MST, MVP, SAP, GAP, STAP, RSAP, SGP, GGP, STGP, RSGP,
    SIO, GIO, StopApplication, RunApplication, StepApplication,
    ResetApplication, GetApplicationStatus, GetFirmwareVersion,
    mbind, prog_bind, Exec, defer, call;
  simpl; split; [reflexivity|];
  repeat (walk_inside;
          try match goal with
              | |- context [match ?e with _ => _ end] => destruct e
              end).

(** X19. Each of the named operations takes the mutex before anything
    else, never takes it twice, and returns only right after releasing
    it: all it does with the port is done between that one [Lock] and
    that one [Unlock]. *)
Theorem operations_hold_mutex (motor mode index bank portNo : byte)
        (value : int32) (flag : bool) :
  entry (ROR motor value) /\ entry (ROL motor value) /\ entry (MST motor)
  /\ entry (MVP mode motor value) /\ entry (SAP index motor value)
  /\ entry (GAP index motor) /\ entry (STAP index motor)
  /\ entry (RSAP index motor) /\ entry (SGP index bank value)
  /\ entry (GGP index bank) /\ entry (STGP index bank)
  /\ entry (RSGP index bank) /\ entry (SIO portNo bank flag)
  /\ entry (GIO portNo bank) /\ entry StopApplication
  /\ entry (RunApplication flag value) /\ entry StepApplication
  /\ entry ResetApplication /\ entry GetApplicationStatus
  /\ entry GetFirmwareVersion.
Proof.
  do 19 (split; [op_entry|]). op_entry.
Qed.

Lemma GetFirmwareVersion_hexdump_witness :
  exists w',
    result GetFirmwareVersion (board None [2; 1; 100; 136; 1; 2; 171; 4; 161])
    = Some (("0102AB04"%string, None), w').
Proof.
  eexists.
  refine (GetFirmwareVersion_hexdump
            (board None [2; 1; 100; 136; 1; 2; 171; 4; 161]) _
            [2; 1; 100; 136; 1; 2; 171; 4; 161] _ _ _ _ _).
  - script_answers.
  - split; [reflexivity|bytes].
  - reflexivity.
  - simpl; lia.
  - simpl; lia.
Defined.

Lemma GetFirmwareVersion_negative_witness :
  exists rest w',
    result GetFirmwareVersion
           (board None [2; 1; 100; 136; 255; 255; 255; 255; 235])
    = Some ((String "-"%char rest, None), w').
Proof.
  destruct (GetFirmwareVersion_negative
              (board None [2; 1; 100; 136; 255; 255; 255; 255; 235])
              (mkWorld (NewTMCL (Some (mkScript [request 136 1 0 0] None []))
                                None) [])
              [2; 1; 100; 136; 255; 255; 255; 255; 235])
    as [rest Hrest].
  - script_answers.
  - split; [reflexivity|bytes].
  - reflexivity.
  - simpl; lia.
  - simpl; lia.
  - exists rest. eexists. exact Hrest.
Defined.

Lemma SIO_frame_witness :
  List.filter is_write (trace (SIO 3 2 true) (board None []))
  = [PortWrite [2; 14; 3; 2; 0; 0; 0; 1; 22]].
Proof.
  refine (SIO_frame (board None []) (mkScript [] None []) 3 2 true _ _);
    reflexivity.
Defined.

(** ** What a reply and a request are made of *)

Section Echo.
Context {P : Type} `{ReadWriter P}.

(** X20. [Exec] looks at the status byte, the four value bytes and the
    checksum of a reply and at nothing else: two checksum-valid replies
    with the same status and value bytes give the same result, whatever
    their two address bytes and their command byte are, and whatever
    command was sent. *)
Theorem Exec_ignores_addresses_and_echo (wa wa' wb wb' : world P)
        (cmd typeNo motorOrBank : byte) (value : int32)
        (cmd' typeNo' motorOrBank' : byte) (value' : int32)
        (a0 a1 a3 c0 c1 c3 status b4 b5 b6 b7 cka ckb : byte) :
  let ra := [a0; a1; status; a3; b4; b5; b6; b7; cka] in
  let rb := [c0; c1; status; c3; b4; b5; b6; b7; ckb] in
  answers wa (request cmd typeNo motorOrBank value) ra wa' ->
  answers wb (request cmd' typeNo' motorOrBank' value') rb wb' ->
  checksum_valid ra -> checksum_valid rb ->
  fst <$> result (Exec cmd typeNo motorOrBank value) wa
  = fst <$> result (Exec cmd' typeNo' motorOrBank' value') wb.
Proof.
  intros ra rb Ha Hb Hca Hcb.
  rewrite (result_Exec_reply wa wa' _ _ _ _ ra Ha eq_refl).
  rewrite (result_Exec_reply wb wb' _ _ _ _ rb Hb eq_refl).
  rewrite (reply_outcome_valid ra Hca), (reply_outcome_valid rb Hcb).
  reflexivity.
Qed.

End Echo.

Lemma Exec_ignores_addresses_and_echo_witness :
  fst <$> result (Exec 6 1 0 0) (board None [2; 1; 100; 6; 0; 0; 0; 9; 118])
  = fst <$> result (Exec 6 1 0 0) (board None [7; 7; 100; 99; 0; 0; 0; 9; 222]).
Proof.
  refine (Exec_ignores_addresses_and_echo
            (board None [2; 1; 100; 6; 0; 0; 0; 9; 118])
            (mkWorld (NewTMCL (Some (mkScript [request 6 1 0 0] None [])) None) [])
            (board None [7; 7; 100; 99; 0; 0; 0; 9; 222])
            (mkWorld (NewTMCL (Some (mkScript [request 6 1 0 0] None [])) None) [])
            6 1 0 0 6 1 0 0 2 1 6 7 7 99 100 0 0 0 9 118 222 _ _ _ _).
  - script_answers.
  - script_answers.
  - reflexivity.
  - reflexivity.
Defined.

(** X21. The frame tells the call: two calls of [Exec] that write the
    same frame have the same command, type, motor or bank and value. *)
Theorem request_injective (cmd typeNo motorOrBank : byte) (value : int32)
        (cmd' typeNo' motorOrBank' : byte) (value' : int32) :
  is_int32 value -> is_int32 value' ->
  request cmd typeNo motorOrBank value
  = request cmd' typeNo' motorOrBank' value' ->
  cmd = cmd' /\ typeNo = typeNo' /\ motorOrBank = motorOrBank'
  /\ value = value'.
Proof.
  intros Hv Hv' Heq.
  assert (Hval : PutUint32 (to_uint32 value) = PutUint32 (to_uint32 value'))
    by (apply (f_equal (slice 4 8)) in Heq; exact Heq).
  unfold request in Heq. simpl in Heq.
  injection Heq as -> -> -> _.
  repeat split.
  rewrite <- (to_int32_to_uint32 value Hv), <- (to_int32_to_uint32 value' Hv').
  rewrite <- (Uint32_PutUint32 _ (to_uint32_range value)).
  rewrite <- (Uint32_PutUint32 _ (to_uint32_range value')).
  rewrite Hval. reflexivity.
Qed.

Lemma request_injective_witness :
  (6 : Z) = 6 /\ (1 : Z) = 1 /\ (0 : Z) = 0 /\ (- 7 : Z) = - 7.
Proof.
  apply (request_injective 6 1 0 (- 7) 6 1 0 (- 7));
    unfold is_int32; try lia; reflexivity.
Defined.
